(** * do-dynamic-dns-server: the reconciliation loop of [main.go]

    A shallow embedding of the updater of [main.go] ([LoadConfigFromEnv],
    [NewDDNSUpdater], [Shutdown], [syncRecords], [Run], [CheckIP],
    [updateRecords]) and the properties of its specification.

    Conventions.
    - A Go [string] is a byte string: Rocq's [string].
    - [time.Time] and [time.Duration] are integers ([Z], nanoseconds).
    - A Go slice that may be [nil] is an [option (list _)].
    - [d.recordMap] is a [gmap string DomainRecord].
    - What the program writes to the log and what it asks of the DNS
      provider is recorded, in order, as a list of [Event]s.
    - The libraries the program calls are either transcribed ([strings],
      [net], [strconv]) or, where their answer depends on the outside
      world or on tables that are not part of the program ([tld.Parse],
      the godo client, the HTTP client, [time.ParseDuration]), taken as
      inputs. *)

From Stdlib Require Import ZArith Ascii String List Lia.
From stdpp Require Import base gmap strings list fin_maps.

Open Scope Z_scope.

(** The value of a byte of a string. *)
Definition code (c : ascii) : Z := Z.of_N (N_of_ascii c).

(* ===================================================================== *)
(** ** Package [strings] *)
(* ===================================================================== *)

(** The functions of Go's package [strings] that the program calls, on
    byte strings, after the documentation and the code of the standard
    library. *)

Module strings.

(** [asciiSpace]: the bytes '\t', '\n', '\v', '\f', '\r' and ' '. *)
Definition asciiSpace (c : Z) : bool :=
  (c =? 9) || (c =? 10) || (c =? 11) || (c =? 12) || (c =? 13) || (c =? 32).

(** [unicode.IsSpace] on the code points that take two bytes in UTF-8:
    U+0085 (C2 85) and U+00A0 (C2 A0). *)
Definition space2 (c1 c2 : Z) : bool :=
  (c1 =? 0xC2) && ((c2 =? 0x85) || (c2 =? 0xA0)).

(** [unicode.IsSpace] on the code points that take three bytes: U+1680,
    U+2000 to U+200A, U+2028, U+2029, U+202F, U+205F and U+3000. *)
Definition space3 (c1 c2 c3 : Z) : bool :=
  ((c1 =? 0xE1) && (c2 =? 0x9A) && (c3 =? 0x80))
  || ((c1 =? 0xE2) && (c2 =? 0x80)
      && (((0x80 <=? c3) && (c3 <=? 0x8A))
          || (c3 =? 0xA8) || (c3 =? 0xA9) || (c3 =? 0xAF)))
  || ((c1 =? 0xE2) && (c2 =? 0x81) && (c3 =? 0x9F))
  || ((c1 =? 0xE3) && (c2 =? 0x80) && (c3 =? 0x80)).

(** The loop of [TrimLeftFunc] and, on the reversed string, of
    [TrimRightFunc]: drop the runes that are white space from the head
    of the bytes. [p1], [p2] and [p3] recognize the white-space runes of
    one, two and three bytes; any other head, a byte that starts no
    complete rune too, ends the loop. *)
Fixpoint trimRunes (p1 : Z → bool) (p2 : Z → Z → bool) (p3 : Z → Z → Z → bool)
    (l : list ascii) : list ascii :=
  match l with
  | [] => []
  | c1 :: r1 =>
      if p1 (code c1) then trimRunes p1 p2 p3 r1
      else match r1 with
           | [] => l
           | c2 :: r2 =>
               if p2 (code c1) (code c2) then trimRunes p1 p2 p3 r2
               else match r2 with
                    | [] => l
                    | c3 :: r3 =>
                        if p3 (code c1) (code c2) (code c3)
                        then trimRunes p1 p2 p3 r3 else l
                    end
           end
  end.

(** [TrimLeftFunc(s, unicode.IsSpace)]: a rune is decoded from the
    first bytes of the string. *)
Definition trimLeft (l : list ascii) : list ascii :=
  trimRunes asciiSpace space2 space3 l.

(** [TrimRightFunc(s, unicode.IsSpace)] on the reversed string: the last
    rune is decoded from the last bytes, which come first here. *)
Definition trimRightRev (l : list ascii) : list ascii :=
  trimRunes asciiSpace (fun c1 c2 => space2 c2 c1) (fun c1 c2 c3 => space3 c3 c2 c1) l.

Definition trimRight (l : list ascii) : list ascii :=
  rev (trimRightRev (rev l)).

(** [strings.TrimSpace]: the string without its leading and trailing
    white space, as Unicode defines it. *)
Definition TrimSpace (s : string) : string :=
  string_of_list_ascii (trimRight (trimLeft (list_ascii_of_string s))).

(** Whether the bytes start with a white-space rune. *)
Definition startsRune (p1 : Z → bool) (p2 : Z → Z → bool) (p3 : Z → Z → Z → bool)
    (l : list ascii) : bool :=
  match l with
  | [] => false
  | c1 :: r1 =>
      p1 (code c1)
      || match r1 with
         | [] => false
         | c2 :: r2 =>
             p2 (code c1) (code c2)
             || match r2 with
                | [] => false
                | c3 :: _ => p3 (code c1) (code c2) (code c3)
                end
         end
  end.

(** [strings.HasPrefix] and [strings.TrimPrefix]. *)
Definition HasPrefix (s prefix : string) : bool := String.prefix prefix s.

Definition TrimPrefix (s prefix : string) : string :=
  if HasPrefix s prefix
  then String.substring (String.length prefix)
         (String.length s - String.length prefix) s
  else s.

(** [strings.Split(s, sep)] for a separator of one byte: the pieces of
    [s] between the separators; one piece, [s] itself, when [s] holds no
    separator, also when [s] is empty. *)
Fixpoint splitByte (sep : ascii) (cur : string) (s : string) : list string :=
  match s with
  | EmptyString => [String.rev cur]
  | String c s' =>
      if decide (c = sep) then String.rev cur :: splitByte sep EmptyString s'
      else splitByte sep (String c cur) s'
  end.

Definition Split (s : string) (sep : ascii) : list string :=
  splitByte sep EmptyString s.

End strings.

(* ===================================================================== *)
(** ** Package [net]: IP addresses *)
(* ===================================================================== *)

(** [net.IP] with [Equal], [String] and [ParseIP], after the code of the
    standard library ([net/ip.go], [net/parse.go]): an address is a slice
    of 4 or 16 bytes, and [ParseIP] gives 16 bytes for both families. *)

Module net.

(** [type IP []byte]; the nil slice is the empty list. *)
Definition IP : Type := list Z.

Definition IPv4len : nat := 4.
Definition IPv6len : nat := 16.

Definition v4InV6Prefix : IP := [0; 0; 0; 0; 0; 0; 0; 0; 0; 0; 0xff; 0xff].

(** [IPv4(a, b, c, d)]: the address in its 16-byte form. *)
Definition IPv4 (a b c d : Z) : IP := v4InV6Prefix ++ [a; b; c; d].

(** [bytealg.Equal]. *)
Definition bytesEqual (a b : list Z) : bool := bool_decide (a = b).

(** [func (ip IP) Equal(x IP) bool]: an IPv4 address and the same
    address in IPv6 form are considered to be equal. *)
Definition Equal (ip x : IP) : bool :=
  if (length ip =? length x)%nat then bytesEqual ip x
  else if (length ip =? IPv4len)%nat && (length x =? IPv6len)%nat then
    bytesEqual (take 12 x) v4InV6Prefix && bytesEqual ip (drop 12 x)
  else if (length ip =? IPv6len)%nat && (length x =? IPv4len)%nat then
    bytesEqual (take 12 ip) v4InV6Prefix && bytesEqual (drop 12 ip) x
  else false.

Definition isZeros (p : IP) : bool := forallb (Z.eqb 0) p.

(** [func (ip IP) To4() IP]. *)
Definition To4 (ip : IP) : IP :=
  if (length ip =? IPv4len)%nat then ip
  else if (length ip =? IPv6len)%nat && isZeros (take 10 ip)
          && (nth 10 ip 0 =? 0xff) && (nth 11 ip 0 =? 0xff)
  then drop 12 ip
  else [].

(** *** Printing *)

Definition digitChar (v : Z) : ascii := ascii_of_N (Z.to_N (48 + v)).

Definition hexDigit (v : Z) : ascii :=
  if v <? 10 then ascii_of_N (Z.to_N (48 + v)) else ascii_of_N (Z.to_N (87 + v)).

(** [ubtoa]: the decimal form of a byte, without leading zeros. *)
Definition ubtoa (v : Z) : string :=
  if v <? 10 then String (digitChar v) ""
  else if v <? 100 then String (digitChar (v / 10)) (String (digitChar (v mod 10)) "")
  else String (digitChar (v / 100))
         (String (digitChar ((v / 10) mod 10)) (String (digitChar (v mod 10)) "")).

(** [appendHex]: the hexadecimal form of a 16-bit group, without leading
    zeros. *)
Definition appendHex (i : Z) : string :=
  if i =? 0 then "0"
  else
    string_of_list_ascii
      (flat_map
         (fun j => let v := Z.shiftr i (j * 4) in
                   if 0 <? v then [hexDigit (Z.land v 0xf)] else [])
         [3; 2; 1; 0]).

(** [hexString]: two hexadecimal digits a byte. *)
Fixpoint hexString (b : list Z) : string :=
  match b with
  | [] => ""
  | x :: b' => String (hexDigit (Z.shiftr x 4)) (String (hexDigit (Z.land x 0xf)) (hexString b'))
  end.

(** The 16-bit groups of a 16-byte address. *)
Fixpoint groups (p : list Z) : list Z :=
  match p with
  | hi :: lo :: p' => Z.lor (Z.shiftl hi 8) lo :: groups p'
  | _ => []
  end.

(** The length of the run of zero groups at the head of [g]. *)
Fixpoint zeroRun (g : list Z) : nat :=
  match g with
  | 0 :: g' => S (zeroRun g')
  | _ => O
  end.

(** The search for the longest run of zero groups, as the loop of
    [String] does it: [i] is the index of the head of [g], [skip] the
    number of groups the loop jumps over after it recorded a run, and
    the result is the run [(e0, e1)] in groups, if there is one. *)
Fixpoint longestZeroRun (g : list Z) (i : nat) (skip : nat)
    (best : option (nat * nat)) : option (nat * nat) :=
  match g with
  | [] => best
  | _ :: g' =>
      match skip with
      | S skip' => longestZeroRun g' (S i) skip' best
      | O =>
          let j := (i + zeroRun g)%nat in
          let bestLen := match best with Some (e0, e1) => (e1 - e0)%nat | None => O end in
          if ((i <? j) && (bestLen <? j - i))%nat
          then longestZeroRun g' (S i) (j - i)%nat (Some (i, j))
          else longestZeroRun g' (S i) O best
      end
  end.

(** The groups printed with [::] in place of the run [(e0, e1)]:
    [skip] counts the groups of the run still to jump over, and
    [afterRun] tells that the group comes right after the [::], where no
    colon is printed. *)
Fixpoint printGroups (g : list Z) (i : nat) (run : option (nat * nat))
    (skip : nat) (afterRun : bool) : string :=
  match g with
  | [] => ""
  | x :: g' =>
      match skip with
      | S skip' => printGroups g' (S i) run skip' afterRun
      | O =>
          if match run with Some (e0, _) => (i =? e0)%nat | None => false end
          then "::" +:+ printGroups g' (S i) run
                          (match run with Some (e0, e1) => e1 - e0 - 1 | None => O end)%nat
                          true
          else (if afterRun || (i =? 0)%nat then "" else ":")
                 +:+ appendHex x +:+ printGroups g' (S i) run O false
      end
  end.

(** [func (ip IP) String() string]. *)
Definition String (ip : IP) : string :=
  if (length ip =? 0)%nat then "<nil>"
  else
    let p4 := To4 ip in
    if (length p4 =? IPv4len)%nat then
      ubtoa (nth 0 p4 0) +:+ "." +:+ ubtoa (nth 1 p4 0) +:+ "."
        +:+ ubtoa (nth 2 p4 0) +:+ "." +:+ ubtoa (nth 3 p4 0)
    else if negb (length ip =? IPv6len)%nat then "?" +:+ hexString ip
    else
      let g := groups ip in
      let run :=
        match longestZeroRun g 0 0 None with
        | Some (e0, e1) => if (e1 - e0 <=? 1)%nat then None else Some (e0, e1)
        | None => None
        end in
      printGroups g 0 run 0 false.

(** *** Parsing *)

(** Bigger than we need, not too big to worry about overflow. *)
Definition big : Z := 0xFFFFFF.

Definition isDigit (c : ascii) : bool := (48 <=? code c) && (code c <=? 57).

(** [dtoi]: decimal to integer; the number, the characters consumed and
    success. *)
Fixpoint dtoi_loop (s : list ascii) (n : Z) (i : nat) : Z * nat * bool :=
  match s with
  | c :: s' =>
      if isDigit c then
        let n := n * 10 + (code c - 48) in
        if big <=? n then (big, i, false) else dtoi_loop s' n (S i)
      else if (i =? 0)%nat then (0, O, false) else (n, i, true)
  | [] => if (i =? 0)%nat then (0, O, false) else (n, i, true)
  end.

Definition dtoi (s : list ascii) : Z * nat * bool := dtoi_loop s 0 O.

(** The value of a hexadecimal digit, in either case. *)
Definition hexValue (c : ascii) : option Z :=
  let x := code c in
  if (48 <=? x) && (x <=? 57) then Some (x - 48)
  else if (97 <=? x) && (x <=? 102) then Some (x - 97 + 10)
  else if (65 <=? x) && (x <=? 70) then Some (x - 65 + 10)
  else None.

(** [xtoi]: hexadecimal to integer. *)
Fixpoint xtoi_loop (s : list ascii) (n : Z) (i : nat) : Z * nat * bool :=
  match s with
  | c :: s' =>
      match hexValue c with
      | Some v =>
          let n := n * 16 + v in
          if big <=? n then (0, i, false) else xtoi_loop s' n (S i)
      | None => if (i =? 0)%nat then (0, i, false) else (n, i, true)
      end
  | [] => if (i =? 0)%nat then (0, i, false) else (n, i, true)
  end.

Definition xtoi (s : list ascii) : Z * nat * bool := xtoi_loop s 0 O.

(** The loop of [parseIPv4] from field [i] on: the bytes of the fields
    and what is left of the string. *)
Fixpoint parseIPv4_fields (todo : nat) (i : nat) (s : list ascii)
    : option (list Z * list ascii) :=
  match todo with
  | O => Some ([], s)
  | S todo' =>
      match s with
      | [] => None                                   (* missing octets *)
      | c0 :: s1 =>
          let afterDot :=
            if (0 <? i)%nat
            then (if decide (c0 = "."%char) then Some s1 else None)
            else Some s in
          match afterDot with
          | None => None
          | Some s =>
              let '(n, c, ok) := dtoi s in
              if negb ok || (0xFF <? n) then None
              else if (1 <? c)%nat && bool_decide (hd "x"%char s = "0"%char)
              then None                              (* leading zeroes *)
              else
                match parseIPv4_fields todo' (S i) (drop c s) with
                | Some (p, rest) => Some (n :: p, rest)
                | None => None
                end
          end
      end
  end.

(** [parseIPv4]: a dotted decimal address, in 16-byte form. *)
Definition parseIPv4 (s : list ascii) : IP :=
  match parseIPv4_fields IPv4len 0 s with
  | Some ([a; b; c; d], []) => IPv4 a b c d
  | _ => []
  end.

(** The loop of [parseIPv6]. [ip] holds the bytes written so far, so
    the index [i] of the source is [length ip]; the result is what is
    left of the string, the position of the ellipsis and the bytes, or
    [None] where the source returns nil. [fuel] bounds the iterations:
    every iteration writes two bytes or more and the loop runs while
    fewer than sixteen are written. *)
Fixpoint parseIPv6_loop (fuel : nat) (s : list ascii) (ellipsis : option nat)
    (ip : list Z) : option (list ascii * option nat * list Z) :=
  match fuel with
  | O => Some (s, ellipsis, ip)
  | S fuel' =>
      let i := length ip in
      if (IPv6len <=? i)%nat then Some (s, ellipsis, ip)
      else
        let '(n, c, ok) := xtoi s in
        if negb ok || (0xFFFF <? n) then None
        else if (c <? length s)%nat && bool_decide (nth c s "x"%char = "."%char) then
          (* might be in trailing IPv4 *)
          if bool_decide (ellipsis = None) && negb (i =? IPv6len - IPv4len)%nat
          then None                                  (* not the right place *)
          else if (IPv6len <? i + IPv4len)%nat then None   (* not enough room *)
          else
            match parseIPv4 s with
            | [] => None
            | ip4 => Some ([], ellipsis, ip ++ drop 12 ip4)
            end
        else
          let ip := ip ++ [Z.shiftr n 8; Z.land n 0xff] in
          let i := (i + 2)%nat in
          let s := drop c s in
          match s with
          | [] => Some (s, ellipsis, ip)             (* stop at end of string *)
          | c0 :: s1 =>
              if negb (bool_decide (c0 = ":"%char)) || (length s =? 1)%nat then None
              else
                match s1 with
                | c1 :: s2 =>
                    if decide (c1 = ":"%char) then
                      match ellipsis with
                      | Some _ => None               (* already have one *)
                      | None =>
                          match s2 with
                          | [] => Some (s2, Some i, ip)        (* can be at end *)
                          | _ => parseIPv6_loop fuel' s2 (Some i) ip
                          end
                      end
                    else parseIPv6_loop fuel' s1 ellipsis ip
                | [] => None
                end
          end
  end.

(** [parseIPv6]: an IPv6 address, with at most one ellipsis and possibly
    a trailing IPv4 address. *)
Definition parseIPv6 (s : list ascii) : IP :=
  let start :=
    match s with
    | c0 :: c1 :: s2 =>
        if bool_decide (c0 = ":"%char) && bool_decide (c1 = ":"%char)
        then (Some O, s2) else (None, s)
    | _ => (None, s)
    end in
  match start with
  | (Some _, []) => replicate IPv6len 0              (* only ellipsis *)
  | (ellipsis, s) =>
      match parseIPv6_loop 8 s ellipsis [] with
      | None => []
      | Some (_ :: _, _, _) => []                    (* must have used entire string *)
      | Some ([], ellipsis, ip) =>
          let i := length ip in
          if (i <? IPv6len)%nat then
            match ellipsis with
            | None => []
            | Some e => take e ip ++ replicate (IPv6len - i) 0 ++ drop e ip
            end
          else
            match ellipsis with
            | Some _ => []                           (* at least one 0 group *)
            | None => ip
            end
      end
  end.

(** [ParseIP]: the first '.' or ':' of the string decides between the
    two forms; a string with neither is not an address. *)
Fixpoint ParseIP_scan (s whole : list ascii) : IP :=
  match s with
  | [] => []
  | c :: s' =>
      if decide (c = "."%char) then parseIPv4 whole
      else if decide (c = ":"%char) then parseIPv6 whole
      else ParseIP_scan s' whole
  end.

(** [func ParseIP(s string) IP]: nil when [s] is not the text of an
    address, else the address in 16-byte form. *)
Definition ParseIP (s : string) : IP :=
  let l := list_ascii_of_string s in ParseIP_scan l l.

End net.

(* ===================================================================== *)
(** ** The libraries the program is a client of *)
(* ===================================================================== *)

(** [time.Time] and [time.Duration], with the operations the program
    uses. *)
Module time.
Definition Time : Type := Z.
Definition Duration : Type := Z.
(** The zero value of [time.Time]. *)
Definition zero : Time := 0.
Definition Before (t u : Time) : bool := t <? u.
Definition After (t u : Time) : bool := u <? t.
Definition Equal (t u : Time) : bool := t =? u.
Definition Add (t : Time) (d : Duration) : Time := t + d.
End time.

(** [strconv.ParseBool]; an error is [None]. *)
Module strconv.
Definition ParseBool (str : string) : option bool :=
  if bool_decide (str ∈ ["1"; "t"; "T"; "TRUE"; "true"; "True"]) then Some true
  else if bool_decide (str ∈ ["0"; "f"; "F"; "FALSE"; "false"; "False"]) then Some false
  else None.
End strconv.

(** [godo.DomainRecord], the provider's record. *)
Module godo.
Record DomainRecord : Type := {
  ID : Z;
  Type_ : string;
  Name : string;
  Data : string;
  Priority : Z;
  Port : Z;
  TTL : Z;
  Weight : Z;
  Flags : Z;
  Tag : string;
}.

(** [godo.DomainRecord{}], the zero value. *)
Definition zero : DomainRecord :=
  {| ID := 0; Type_ := ""; Name := ""; Data := ""; Priority := 0; Port := 0;
     TTL := 0; Weight := 0; Flags := 0; Tag := "" |}.

Global Instance DomainRecord_eq_dec : EqDecision DomainRecord.
Proof. solve_decision. Defined.

(** What [Domains.EditRecord] answers: an error, or the record after the
    edit with the status code of the response and whether its body can
    be read. *)
Inductive EditResult : Type :=
| EditError
| EditResponse (r : DomainRecord) (StatusCode : Z) (bodyReadable : bool).
End godo.

(** [tld.URL], the parts of a host name that the program reads. *)
Module tld.
Record URL : Type := { Subdomain : string; Domain : string; TLD : string }.
End tld.

(** The outside world of one run of the program: the public-suffix parser
    and the client of the DNS provider, as the program calls them. An
    answer depends on the arguments of the call only; [None] stands for
    a call that returns an error. *)
Record World : Type := {
  tld_Parse : string -> option tld.URL;
  RecordsByTypeAndName : string -> string -> string -> option (list godo.DomainRecord);
  EditRecord : string -> Z -> string -> godo.EditResult;
}.

(** What [httpClient.Do] and [io.ReadAll] give for the request of
    [CheckIP]. *)
Inductive HTTPResult : Type :=
| RequestError (msg : string)          (* http.NewRequestWithContext fails *)
| TransportError (msg : string)        (* httpClient.Do fails *)
| Response (StatusCode : Z) (Body : option string).   (* None: io.ReadAll fails *)

(** The errors the program makes with [fmt.Errorf]. *)
Inductive error : Type :=
| ErrParseInterval
| ErrDomainsRequired
| ErrShutdownTimeout
| ErrSyncRecords (e : error)
| ErrFormingRequest (msg : string)
| ErrUnpackingResponse (msg : string)
| ErrReadingBody
| ErrFromServer (StatusCode : Z) (body : string).

(** The log lines and the requests to the provider, in the order of the
    program. *)
Inductive Event : Type :=
| LogSyncing (n : nat)
| LogUnableToParse (name : string)
| LogSearching (domain dnsName name : string)
| CallRecordsByTypeAndName (domain type name : string)
| LogUnableToFetch (domain subdomain dnsName : string)
| LogNoRecords (domain subdomain dnsName : string)
| LogError (e : error)
| LogIP (ip : string) (ts : time.Time)
| LogUnchanged
| LogNextCheck (t : time.Time)
| LogIPChanged (new old : string)
| LogConsistent
| CallEditRecord (domain : string) (id : Z) (data : string)
| LogEditError
| LogEditBodyError
| LogEditStatus (StatusCode : Z)
| LogUpdated (domain name : string).

Global Instance error_eq_dec : EqDecision error.
Proof. solve_decision. Defined.

Global Instance Event_eq_dec : EqDecision Event.
Proof. solve_decision. Defined.

(** [http.StatusBadRequest]. *)
Definition StatusBadRequest : Z := 400.

(* ===================================================================== *)
(** ** Configuration *)
(* ===================================================================== *)

Record Config : Type := {
  DOToken : string;
  Interval : time.Duration;
  Domains : option (list string);
  Debug : bool;
}.

(** [os.Getenv]: the value of the variable, empty when it is not set. *)
Definition Getenv (env : gmap string string) (key : string) : string :=
  default "" (env !! key).

(** [append(s, xs...)] on a slice that may be nil. *)
Definition append {A} (s : option (list A)) (xs : list A) : option (list A) :=
  match s, xs with
  | None, [] => None
  | None, _ => Some xs
  | Some l, _ => Some (l ++ xs)
  end.

Section LoadConfig.

(** [time.ParseDuration]; [None] is an error. *)
Variable ParseDuration : string -> option time.Duration.

Definition LoadConfigFromEnv (env : gmap string string) : Config + error :=
  let DOToken := Getenv env "DDNS_DO_API_TOKEN" in
  match ParseDuration (Getenv env "DDNS_INTERVAL") with
  | None => inr ErrParseInterval
  | Some interval =>
      let domains : option (list string) := Some [] in
      let rawDomains := Getenv env "DDNS_DOMAINS" in
      let parts := strings.Split rawDomains ","%char in
      let domains := append domains parts in
      match domains with
      | None => inr ErrDomainsRequired
      | Some _ =>
          inl {| DOToken := DOToken; Interval := interval; Domains := domains;
                 Debug := default false (strconv.ParseBool (Getenv env "DDNS_DEBUG")) |}
      end
  end.

End LoadConfig.

(* ===================================================================== *)
(** ** The updater *)
(* ===================================================================== *)

(** [type DDNSUpdater struct]. The two clients are the [World]. *)
Record DDNSUpdater : Type := {
  recordMap : gmap string godo.DomainRecord;
  interval : time.Duration;
  lastSet : time.Time;
  nextCheck : time.Time;
  currentIP : net.IP;
  shutdown : bool;
  complete : bool;
}.

Definition set_recordMap (m : gmap string godo.DomainRecord) (d : DDNSUpdater) : DDNSUpdater :=
  {| recordMap := m; interval := interval d; lastSet := lastSet d;
     nextCheck := nextCheck d; currentIP := currentIP d;
     shutdown := shutdown d; complete := complete d |}.

Definition set_lastSet (t : time.Time) (d : DDNSUpdater) : DDNSUpdater :=
  {| recordMap := recordMap d; interval := interval d; lastSet := t;
     nextCheck := nextCheck d; currentIP := currentIP d;
     shutdown := shutdown d; complete := complete d |}.

Definition set_nextCheck (t : time.Time) (d : DDNSUpdater) : DDNSUpdater :=
  {| recordMap := recordMap d; interval := interval d; lastSet := lastSet d;
     nextCheck := t; currentIP := currentIP d;
     shutdown := shutdown d; complete := complete d |}.

Definition set_currentIP (ip : net.IP) (d : DDNSUpdater) : DDNSUpdater :=
  {| recordMap := recordMap d; interval := interval d; lastSet := lastSet d;
     nextCheck := nextCheck d; currentIP := ip;
     shutdown := shutdown d; complete := complete d |}.

Definition set_shutdown (b : bool) (d : DDNSUpdater) : DDNSUpdater :=
  {| recordMap := recordMap d; interval := interval d; lastSet := lastSet d;
     nextCheck := nextCheck d; currentIP := currentIP d;
     shutdown := b; complete := complete d |}.

Definition set_complete (b : bool) (d : DDNSUpdater) : DDNSUpdater :=
  {| recordMap := recordMap d; interval := interval d; lastSet := lastSet d;
     nextCheck := nextCheck d; currentIP := currentIP d;
     shutdown := shutdown d; complete := b |}.

(** [NewDDNSUpdater]: every configured name is bound to the zero record;
    [now] is the [time.Now()] of the call. *)
Definition NewDDNSUpdater (domains : option (list string)) (interval : time.Duration)
    (now : time.Time) : DDNSUpdater :=
  let domainTable :=
    foldl (fun (m : gmap string godo.DomainRecord) domain => <[domain := godo.zero]> m)
          ∅ (default [] domains) in
  {| recordMap := domainTable; interval := interval; lastSet := time.zero;
     nextCheck := now; currentIP := []; shutdown := false; complete := false |}.

(** *** Ranging over the map

    [for name, record := range d.recordMap] visits the entries in an order
    that Go leaves open, reads the value of an entry when it comes to it,
    and may or may not come to an entry that the loop itself created. The
    order is an input of the model: the loops below take the list of the
    names in the order of the visits, and a name that is not in the map
    when its turn comes gives no iteration. [range_order m order] says
    that [order] is an order Go can choose for a map that is [m] when the
    loop starts: no name twice, and every name of [m] in it. *)
Definition range_order (m : gmap string godo.DomainRecord) (order : list string) : Prop :=
  NoDup order ∧ ∀ name, name ∈ dom m → name ∈ order.

(** *** Shutdown *)

(** What one iteration of the loop of [Shutdown] reads: the two
    [time.Now()] of the test of the deadline, and [d.complete], which the
    run loop writes. *)
Record ShutdownTick : Type := {
  now1 : time.Time;
  now2 : time.Time;
  completeRead : bool;
}.

(** The loop of [Shutdown] over the ticks that [time.Tick] has delivered.
    [ctx] is [ctx.Deadline()]: [None] when the context has no deadline.
    The result is [None] while the loop waits for its next tick, else what
    [Shutdown] returns. *)
Fixpoint Shutdown_loop (ctx : option time.Time) (ticks : list ShutdownTick)
    : option (option error) :=
  match ticks with
  | [] => None
  | t :: ticks' =>
      if match ctx with
         | Some deadline => time.After (now1 t) deadline || time.Equal (now2 t) deadline
         | None => false
         end
      then Some (Some ErrShutdownTimeout)
      else if completeRead t then Some None
      else Shutdown_loop ctx ticks'
  end.

(** An iteration of the loop of [Shutdown] that returns nothing: the
    deadline is not reached and [d.complete] is not set. *)
Definition waits (ctx : option time.Time) (t : ShutdownTick) : Prop :=
  Shutdown_loop ctx [t] = None.

Definition Shutdown (ctx : option time.Time) (ticks : list ShutdownTick) (d : DDNSUpdater)
    : DDNSUpdater * option (option error) :=
  (set_shutdown true d, Shutdown_loop ctx ticks).

(** [hostname.Domain + "." + hostname.TLD], the registrable domain that
    both loops compute from the parsed name. *)
Definition domainOf (hostname : tld.URL) : string :=
  tld.Domain hostname +:+ "." +:+ tld.TLD hostname.

(** *** syncRecords *)

(** The body of the loop of [syncRecords] for the key [name]. *)
Definition syncRecords_visit (w : World) (name : string) (d : DDNSUpdater)
    : DDNSUpdater * list Event :=
  match tld_Parse w ("http://" +:+ name) with
  | None => (d, [LogUnableToParse name])
  | Some hostname =>
      let domain := domainOf hostname in
      let subdomain := tld.Subdomain hostname in
      let dnsName := subdomain +:+ "." +:+ domain in
      let dnsName := strings.TrimPrefix dnsName "." in
      let pre := [LogSearching domain dnsName name;
                  CallRecordsByTypeAndName domain "A" dnsName] in
      match RecordsByTypeAndName w domain "A" dnsName with
      | None => (d, pre ++ [LogUnableToFetch domain subdomain dnsName])
      | Some [] => (d, pre ++ [LogNoRecords domain subdomain dnsName])
      | Some (record :: _) => (set_recordMap (<[name := record]> (recordMap d)) d, pre)
      end
  end.

Fixpoint syncRecords_range (w : World) (order : list string) (d : DDNSUpdater)
    : DDNSUpdater * list Event :=
  match order with
  | [] => (d, [])
  | name :: rest =>
      match recordMap d !! name with
      | None => syncRecords_range w rest d
      | Some _ =>
          let '(d1, e1) := syncRecords_visit w name d in
          let '(d2, e2) := syncRecords_range w rest d1 in
          (d2, e1 ++ e2)
      end
  end.

Definition syncRecords (w : World) (order : list string) (d : DDNSUpdater)
    : DDNSUpdater * list Event * option error :=
  let '(d', ev) := syncRecords_range w order d in
  (d', LogSyncing (size (recordMap d)) :: ev, None).

(** What the synchronization finds for [name]: the first record of the
    answer of the provider, if the name parses and the provider answers
    with a record. *)
Definition syncRecords_found (w : World) (name : string) : option godo.DomainRecord :=
  match tld_Parse w ("http://" +:+ name) with
  | None => None
  | Some hostname =>
      match RecordsByTypeAndName w (domainOf hostname) "A"
              (strings.TrimPrefix (tld.Subdomain hostname +:+ "." +:+ domainOf hostname) ".") with
      | Some (record :: _) => Some record
      | _ => None
      end
  end.

(** *** CheckIP *)

Definition CheckIP (http : HTTPResult) : string * option error :=
  match http with
  | RequestError msg => ("", Some (ErrFormingRequest msg))
  | TransportError msg => ("", Some (ErrUnpackingResponse msg))
  | Response _ None => ("", Some ErrReadingBody)
  | Response StatusCode (Some body) =>
      if StatusBadRequest <=? StatusCode then ("", Some (ErrFromServer StatusCode body))
      else (strings.TrimSpace body, None)
  end.

(** *** updateRecords *)

(** The body of the loop of [updateRecords] for the entry [name],
    [record]. *)
Definition updateRecords_visit (w : World) (name : string) (record : godo.DomainRecord)
    (d : DDNSUpdater) : DDNSUpdater * list Event :=
  if decide (godo.Data record = net.String (currentIP d)) then (d, [LogConsistent])
  else
    match tld_Parse w ("http://" +:+ name) with
    | None => (d, [LogUnableToParse name])
    | Some hostname =>
        let domain := domainOf hostname in
        let call := CallEditRecord domain (godo.ID record) (net.String (currentIP d)) in
        match EditRecord w domain (godo.ID record) (net.String (currentIP d)) with
        | godo.EditError => (d, [call; LogEditError])
        | godo.EditResponse r StatusCode bodyReadable =>
            if negb bodyReadable then (d, [call; LogEditBodyError])
            else if StatusBadRequest <=? StatusCode then (d, [call; LogEditStatus StatusCode])
            else (set_recordMap (<[domain := r]> (recordMap d)) d,
                  [call; LogUpdated domain (godo.Name record)])
        end
    end.

Fixpoint updateRecords_range (w : World) (order : list string) (d : DDNSUpdater)
    : DDNSUpdater * list Event :=
  match order with
  | [] => (d, [])
  | name :: rest =>
      match recordMap d !! name with
      | None => updateRecords_range w rest d
      | Some record =>
          let '(d1, e1) := updateRecords_visit w name record d in
          let '(d2, e2) := updateRecords_range w rest d1 in
          (d2, e1 ++ e2)
      end
  end.

Definition updateRecords (w : World) (order : list string) (ip : net.IP) (ts : time.Time)
    (d : DDNSUpdater) : DDNSUpdater * list Event :=
  let oldIP := currentIP d in
  let d := set_currentIP ip d in
  let '(d, ev) := updateRecords_range w order d in
  (set_lastSet ts d, LogIPChanged (net.String ip) (net.String oldIP) :: ev).

(** *** Run *)

(** What one iteration of the loop of [Run] takes from outside: the value
    [tick] of the ticker, [time.Now()], what the request of [CheckIP]
    gives if it is made, and the order of the range of the update pass if
    there is one. *)
Record Tick : Type := {
  tick : time.Time;
  now : time.Time;
  probe : HTTPResult;
  order : list string;
}.

(** One iteration of the loop of [Run]; the boolean tells whether the loop
    goes on ([false] is the [break]). *)
Definition Run_tick (w : World) (t : Tick) (d : DDNSUpdater)
    : DDNSUpdater * list Event * bool :=
  if shutdown d then (set_complete true d, [], false)
  else if time.Before (nextCheck d) (now t) || time.Equal (nextCheck d) (now t) then
    let '(address, err) := CheckIP (probe t) in
    let e1 := match err with Some e => [LogError e] | None => [] end in
    let ip := net.ParseIP (strings.TrimSpace address) in
    let e2 := [LogIP (net.String ip) (tick t)] in
    let '(d1, e3) :=
      if negb (net.Equal (currentIP d) ip) then updateRecords w (order t) ip (tick t) d
      else (d, [LogUnchanged]) in
    let d2 := set_nextCheck (time.Add (now t) (interval d1)) d1 in
    (d2, e1 ++ e2 ++ e3 ++ [LogNextCheck (nextCheck d2)], true)
  else (d, [], true).

(** The loop of [Run] over the ticks delivered so far; the boolean tells
    whether the loop is still running. *)
Fixpoint Run_loop (w : World) (ticks : list Tick) (d : DDNSUpdater)
    : DDNSUpdater * list Event * bool :=
  match ticks with
  | [] => (d, [], true)
  | t :: ticks' =>
      let '(d1, e1, continue) := Run_tick w t d in
      if continue then
        let '(d2, e2, running) := Run_loop w ticks' d1 in (d2, e1 ++ e2, running)
      else (d1, e1, false)
  end.

(** [Run]: the synchronization, then the loop. The result is [None] while
    the loop runs, else what [Run] returns. *)
Definition Run (w : World) (syncOrder : list string) (ticks : list Tick) (d : DDNSUpdater)
    : DDNSUpdater * list Event * option (option error) :=
  let '(d0, e0, err) := syncRecords w syncOrder d in
  match err with
  | Some e => (d0, e0, Some (Some (ErrSyncRecords e)))
  | None =>
      let '(d1, e1, running) := Run_loop w ticks d0 in
      (d1, e0 ++ e1, if running then None else Some None)
  end.

(* ===================================================================== *)
(** ** main, up to the start of the server *)
(* ===================================================================== *)

(** How the sequential start of [main] ends: with the server made, or
    with the panic of the dereference of the nil [cfg]. *)
Inductive Startup : Type :=
| Panic
| Started (debug : bool) (server : DDNSUpdater).

(** [main] from its first statement to [NewDDNSUpdater]: the error of
    [LoadConfigFromEnv] is logged and [main] goes on, and [cfg.Debug]
    then reads the nil pointer that comes with the error. The result is
    the error that was logged, if any, and how the start ends. *)
Definition main_setup (ParseDuration : string -> option time.Duration)
    (env : gmap string string) (now : time.Time) : option error * Startup :=
  match LoadConfigFromEnv ParseDuration env with
  | inr err => (Some err, Panic)
  | inl cfg =>
      (None, Started (Debug cfg) (NewDDNSUpdater (Domains cfg) (Interval cfg) now))
  end.

(* ===================================================================== *)
(** ** The earlier revision of the loop *)
(* ===================================================================== *)

(** [src/unnamed/part_001] is the program before [CheckIP] and
    [updateRecords] were split off: [Run] holds the probe and the update
    pass itself, and leaves the iteration with [continue] on every
    failure of the probe. Its [SyncRecords] has the statements of
    [syncRecords]. *)
Module part_001.

Definition SyncRecords : World -> list string -> DDNSUpdater
    -> DDNSUpdater * list Event * option error := syncRecords.

(** The body of the inner loop of [Run] for the entry [hostname],
    [record]; the body of the answer to the edit is not read here. *)
Definition Run_visit (w : World) (hostname : string) (record : godo.DomainRecord)
    (d : DDNSUpdater) : DDNSUpdater * list Event :=
  if decide (godo.Data record = net.String (currentIP d)) then (d, [LogConsistent])
  else
    match tld_Parse w ("http://" +:+ hostname) with
    | None => (d, [LogUnableToParse hostname])
    | Some url =>
        let domain := domainOf url in
        let call := CallEditRecord domain (godo.ID record) (net.String (currentIP d)) in
        match EditRecord w domain (godo.ID record) (net.String (currentIP d)) with
        | godo.EditError => (d, [call; LogEditError])
        | godo.EditResponse r StatusCode _ =>
            if StatusBadRequest <=? StatusCode then (d, [call; LogEditStatus StatusCode])
            else (set_recordMap (<[domain := r]> (recordMap d)) d,
                  [call; LogUpdated domain (godo.Name record)])
        end
    end.

Fixpoint Run_range (w : World) (order : list string) (d : DDNSUpdater)
    : DDNSUpdater * list Event :=
  match order with
  | [] => (d, [])
  | hostname :: rest =>
      match recordMap d !! hostname with
      | None => Run_range w rest d
      | Some record =>
          let '(d1, e1) := Run_visit w hostname record d in
          let '(d2, e2) := Run_range w rest d1 in
          (d2, e1 ++ e2)
      end
  end.

(** One iteration of the loop of [Run]. The four log lines of the
    failures of the probe carry the texts of the errors of [CheckIP]. *)
Definition Run_tick (w : World) (t : Tick) (d : DDNSUpdater)
    : DDNSUpdater * list Event * bool :=
  if shutdown d then (set_complete true d, [], false)
  else if time.Before (nextCheck d) (now t) || time.Equal (nextCheck d) (now t) then
    match probe t with
    | RequestError msg => (d, [LogError (ErrFormingRequest msg)], true)
    | TransportError msg => (d, [LogError (ErrUnpackingResponse msg)], true)
    | Response _ None => (d, [LogError ErrReadingBody], true)
    | Response StatusCode (Some body) =>
        if StatusBadRequest <=? StatusCode
        then (d, [LogError (ErrFromServer StatusCode body)], true)
        else
          let ip := net.ParseIP (strings.TrimSpace body) in
          let e2 := [LogIP (net.String ip) (tick t)] in
          let '(d1, e3) :=
            if negb (net.Equal (currentIP d) ip) then
              let oldIP := currentIP d in
              let d := set_currentIP ip d in
              let '(d, ev) := Run_range w (order t) d in
              (set_lastSet (tick t) d, LogIPChanged (net.String ip) (net.String oldIP) :: ev)
            else (d, [LogUnchanged]) in
          let d2 := set_nextCheck (time.Add (now t) (interval d1)) d1 in
          (d2, e2 ++ e3 ++ [LogNextCheck (nextCheck d2)], true)
    end
  else (d, [], true).

Fixpoint Run_loop (w : World) (ticks : list Tick) (d : DDNSUpdater)
    : DDNSUpdater * list Event * bool :=
  match ticks with
  | [] => (d, [], true)
  | t :: ticks' =>
      let '(d1, e1, continue) := Run_tick w t d in
      if continue then
        let '(d2, e2, running) := Run_loop w ticks' d1 in (d2, e1 ++ e2, running)
      else (d1, e1, false)
  end.

Definition Run (w : World) (syncOrder : list string) (ticks : list Tick) (d : DDNSUpdater)
    : DDNSUpdater * list Event * option (option error) :=
  let '(d0, e0, err) := SyncRecords w syncOrder d in
  match err with
  | Some e => (d0, e0, Some (Some (ErrSyncRecords e)))
  | None =>
      let '(d1, e1, running) := Run_loop w ticks d0 in
      (d1, e0 ++ e1, if running then None else Some None)
  end.

End part_001.

(* ===================================================================== *)
(** ** Notions of the statements *)
(* ===================================================================== *)

(** [strings.Join(elems, sep)], the inverse of [Split]. *)
Fixpoint Join (elems : list string) (sep : string) : string :=
  match elems with
  | [] => ""
  | x :: rest =>
      match rest with
      | [] => x
      | _ => x +:+ sep +:+ Join rest sep
      end
  end.

(** The number of bytes [c] in [s]. *)
Fixpoint countByte (c : ascii) (s : string) : nat :=
  match s with
  | EmptyString => O
  | String x s' => ((if decide (x = c) then 1 else 0) + countByte c s')%nat
  end.

(** The events that are requests to the provider. *)
Definition isLookup (e : Event) : bool :=
  match e with CallRecordsByTypeAndName _ _ _ => true | _ => false end.

Definition isEdit (e : Event) : bool :=
  match e with CallEditRecord _ _ _ => true | _ => false end.

(** An address as [ParseIP] gives it: nil or sixteen bytes. *)
Definition parsedIP (ip : net.IP) : Prop := ip = [] ∨ length ip = net.IPv6len.

(** A provider whose edits all fail: with an error, with a body that
    cannot be read, or with a status of 400 or more. *)
Definition edits_fail (w : World) : Prop :=
  ∀ domain id data,
    match EditRecord w domain id data with
    | godo.EditError => True
    | godo.EditResponse _ StatusCode bodyReadable =>
        bodyReadable = false ∨ StatusBadRequest ≤ StatusCode
    end.

(** A provider whose answers to edits can all be read. *)
Definition edits_readable (w : World) : Prop :=
  ∀ domain id data r StatusCode bodyReadable,
    EditRecord w domain id data = godo.EditResponse r StatusCode bodyReadable →
    bodyReadable = true.

(* ===================================================================== *)
(** ** Scenarios *)
(* ===================================================================== *)

(** The worlds and states of the scenarios below. The parser splits the
    two names of the scenarios as the public-suffix list does. *)
Definition scenario_Parse (s : string) : option tld.URL :=
  if decide (s = "http://home.example.com")
  then Some {| tld.Subdomain := "home"; tld.Domain := "example"; tld.TLD := "com" |}
  else if decide (s = "http://example.com")
  then Some {| tld.Subdomain := ""; tld.Domain := "example"; tld.TLD := "com" |}
  else None.

(** The A record [id] of the provider with the address [data]. *)
Definition scenario_record (id : Z) (name data : string) : godo.DomainRecord :=
  {| godo.ID := id; godo.Type_ := "A"; godo.Name := name; godo.Data := data;
     godo.Priority := 0; godo.Port := 0; godo.TTL := 1800; godo.Weight := 0;
     godo.Flags := 0; godo.Tag := "" |}.

(** A provider that holds the record 1, "home", of example.com, has no
    record for the bare domain, and carries out every edit. *)
Definition scenario_world : World :=
  {| tld_Parse := scenario_Parse;
     RecordsByTypeAndName := fun domain type name =>
       if decide (name = "home.example.com")
       then Some [scenario_record 1 "home" "1.2.3.4"] else Some [];
     EditRecord := fun domain id data =>
       godo.EditResponse (scenario_record id "home" data) 200 true |}.

(** The same provider when it is out of reach. *)
Definition scenario_world_down : World :=
  {| tld_Parse := scenario_Parse;
     RecordsByTypeAndName := fun _ _ _ => None;
     EditRecord := fun _ _ _ => godo.EditError |}.

(** The updater that tracks home.example.com after a synchronization
    that found the record 1 with 1.2.3.4, and after a first probe that
    gave the same address. *)
Definition scenario_synced : DDNSUpdater :=
  {| recordMap := {[ "home.example.com" := scenario_record 1 "home" "1.2.3.4" ]};
     interval := 5000000000; lastSet := 1000000000; nextCheck := 6000000000;
     currentIP := net.IPv4 1 2 3 4; shutdown := false; complete := false |}.

(** The updater that tracks home.example.com when the synchronization
    found no record: the binding is the zero record. *)
Definition scenario_unresolved : DDNSUpdater :=
  NewDDNSUpdater (Some ["home.example.com"]) 5000000000 0.

(** The updater that tracks example.com, whose record 7 already holds
    5.6.7.8, and home.example.com, whose record 1 holds 1.2.3.4. *)
Definition scenario_two_hosts : DDNSUpdater :=
  {| recordMap := {[ "example.com" := scenario_record 7 "@" "5.6.7.8";
                     "home.example.com" := scenario_record 1 "home" "1.2.3.4" ]};
     interval := 5000000000; lastSet := 1000000000; nextCheck := 6000000000;
     currentIP := net.IPv4 1 2 3 4; shutdown := false; complete := false |}.

(** The updater that tracks home.example.com after the synchronization,
    before the first probe: no address is known yet and the probe is
    due. *)
Definition scenario_fresh : DDNSUpdater :=
  {| recordMap := {[ "home.example.com" := scenario_record 1 "home" "1.2.3.4" ]};
     interval := 5000000000; lastSet := time.zero; nextCheck := 1000000000;
     currentIP := []; shutdown := false; complete := false |}.

(** The updater that tracks three names before the synchronization:
    home.example.com, which the provider knows, example.com, for which
    it has no record, and a name that does not parse. *)
Definition scenario_three_hosts : DDNSUpdater :=
  NewDDNSUpdater (Some ["home.example.com"; "example.com"; "no such host"]) 5000000000 0.

(** The updater that tracks the bare domain example.com, whose record 7
    holds 1.2.3.4, and a provider that carries out every edit of it. *)
Definition scenario_root : DDNSUpdater :=
  {| recordMap := {[ "example.com" := scenario_record 7 "@" "1.2.3.4" ]};
     interval := 5000000000; lastSet := 1000000000; nextCheck := 6000000000;
     currentIP := net.IPv4 1 2 3 4; shutdown := false; complete := false |}.

Definition scenario_world_root : World :=
  {| tld_Parse := scenario_Parse;
     RecordsByTypeAndName := fun domain type name =>
       if decide (name = "example.com")
       then Some [scenario_record 7 "@" "1.2.3.4"] else Some [];
     EditRecord := fun domain id data =>
       godo.EditResponse (scenario_record id "@" data) 200 true |}.

(** A [time.ParseDuration] for the scenarios: it knows "5s". *)
Definition scenario_ParseDuration (s : string) : option time.Duration :=
  if decide (s = "5s") then Some 5000000000 else None.

(* ===================================================================== *)
(** ** The library functions on examples *)
(* ===================================================================== *)

Example TrimSpace_ex1 :
  strings.TrimSpace (String (ascii_of_nat 10) " 1.2.3.4 " +:+ String (ascii_of_nat 10) "")
  = "1.2.3.4".
Proof. reflexivity. Qed.

Example TrimSpace_ex2 :
  strings.TrimSpace
    (String (ascii_of_nat 194) (String (ascii_of_nat 160) "a b"
       +:+ String (ascii_of_nat 226) (String (ascii_of_nat 128) (String (ascii_of_nat 137) ""))))
  = "a b".
Proof. reflexivity. Qed.

Example Split_empty : strings.Split "" "," = [""].
Proof. reflexivity. Qed.

Example Split_ex : strings.Split "a.example.com,,b.org" "," = ["a.example.com"; ""; "b.org"].
Proof. reflexivity. Qed.

Example TrimPrefix_ex1 : strings.TrimPrefix ".example.com" "." = "example.com".
Proof. reflexivity. Qed.

Example TrimPrefix_ex2 : strings.TrimPrefix "home.example.com" "." = "home.example.com".
Proof. reflexivity. Qed.

Example String_nil : net.String [] = "<nil>".
Proof. reflexivity. Qed.

Example String_v4 : net.String (net.IPv4 192 168 0 17) = "192.168.0.17".
Proof. reflexivity. Qed.

Example String_v4_short : net.String [10; 0; 200; 255] = "10.0.200.255".
Proof. reflexivity. Qed.

Example String_v6_a :
  net.String [0x20; 0x01; 0x0d; 0xb8; 0; 0; 0; 0; 0; 0; 0; 0; 0; 0; 0; 1] = "2001:db8::1".
Proof. reflexivity. Qed.

Example String_v6_b : net.String [0;0;0;0;0;0;0;0;0;0;0;0;0;0;0;0] = "::".
Proof. reflexivity. Qed.

Example String_v6_c :
  net.String [0x20; 0x01; 0; 0; 0; 1; 0; 0; 0; 0; 0; 0; 0; 2; 0; 3] = "2001:0:1::2:3".
Proof. reflexivity. Qed.

Example String_v6_d :
  net.String [0; 1; 0; 0; 0; 0; 0; 3; 0; 0; 0; 0; 0; 0; 0xab; 0xcd] = "1:0:0:3::abcd"
  /\ net.String [0; 1; 0; 0; 0; 0; 0; 3; 0; 0; 0; 0; 0; 5; 0; 6] = "1::3:0:0:5:6".
Proof. split; reflexivity. Qed.

Example String_v6_e :
  net.String [0; 1; 0; 0; 0; 2; 0; 3; 0; 4; 0; 5; 0; 6; 0; 7] = "1:0:2:3:4:5:6:7".
Proof. reflexivity. Qed.

Example String_odd : net.String [1; 0xab] = "?01ab".
Proof. reflexivity. Qed.

Example ParseIP_v4 : net.ParseIP "1.2.3.4" = net.IPv4 1 2 3 4.
Proof. reflexivity. Qed.

Example ParseIP_v4_bad :
  net.ParseIP "1.2.3" = [] /\ net.ParseIP "1.2.3.256" = [] /\ net.ParseIP "1.2.3.04" = []
  /\ net.ParseIP "1.2.3.4.5" = [] /\ net.ParseIP "" = [] /\ net.ParseIP "garbage" = []
  /\ net.ParseIP "1.2.3.4 " = [].
Proof. repeat split; reflexivity. Qed.

Example ParseIP_v6 :
  net.ParseIP "2001:db8::1" = [0x20; 0x01; 0x0d; 0xb8; 0; 0; 0; 0; 0; 0; 0; 0; 0; 0; 0; 1]
  /\ net.ParseIP "::" = replicate 16 0
  /\ net.ParseIP "::1" = [0; 0; 0; 0; 0; 0; 0; 0; 0; 0; 0; 0; 0; 0; 0; 1]
  /\ net.ParseIP "1::" = [0; 1; 0; 0; 0; 0; 0; 0; 0; 0; 0; 0; 0; 0; 0; 0]
  /\ net.ParseIP "1:2:3:4:5:6:7:8" = [0; 1; 0; 2; 0; 3; 0; 4; 0; 5; 0; 6; 0; 7; 0; 8]
  /\ net.ParseIP "::ffff:1.2.3.4" = net.IPv4 1 2 3 4
  /\ net.ParseIP "1:2:3:4:5:6:1.2.3.4" = [0; 1; 0; 2; 0; 3; 0; 4; 0; 5; 0; 6; 1; 2; 3; 4].
Proof. repeat split; reflexivity. Qed.

Example ParseIP_v6_bad :
  net.ParseIP "1:2:3:4:5:6:7" = [] /\ net.ParseIP "1:2:3:4:5:6:7:8:9" = []
  /\ net.ParseIP "1::2::3" = [] /\ net.ParseIP "1:2:3:4:5:6:7::8" = []
  /\ net.ParseIP ":1" = [] /\ net.ParseIP "1:" = [] /\ net.ParseIP "12345::" = []
  /\ net.ParseIP "1:2:3:4:5:1.2.3.4" = [] /\ net.ParseIP "fe80::1%eth0" = []
  /\ net.ParseIP "g::" = [].
Proof. repeat split; reflexivity. Qed.

(* ===================================================================== *)
(** ** The update pass *)
(* ===================================================================== *)

Lemma updateRecords_visit_fields w name record d :
  let d' := (updateRecords_visit w name record d).1 in
  interval d' = interval d ∧ lastSet d' = lastSet d ∧ nextCheck d' = nextCheck d
  ∧ currentIP d' = currentIP d ∧ shutdown d' = shutdown d ∧ complete d' = complete d.
Proof.
  unfold updateRecords_visit.
  repeat (case_decide || case_match); simpl; auto 10.
Qed.

Lemma updateRecords_range_fields w order : ∀ d,
  let d' := (updateRecords_range w order d).1 in
  interval d' = interval d ∧ lastSet d' = lastSet d ∧ nextCheck d' = nextCheck d
  ∧ currentIP d' = currentIP d ∧ shutdown d' = shutdown d ∧ complete d' = complete d.
Proof.
  induction order as [|name rest IH]; intros d; simpl; [auto 10|].
  destruct (recordMap d !! name) as [record|]; [|apply IH].
  pose proof (updateRecords_visit_fields w name record d) as Hv.
  destruct (updateRecords_visit w name record d) as [d1 e1]; simpl in Hv.
  pose proof (IH d1) as Hr.
  destruct (updateRecords_range w rest d1) as [d2 e2]; simpl in *.
  intuition congruence.
Qed.

(** C8, as the code has it: every update pass sets [lastSet] to the
    time stamp [ts] it is given, whether or not a write to the provider
    succeeded in it. *)
Theorem updateRecords_sets_lastSet w order ip ts d :
  lastSet (updateRecords w order ip ts d).1 = ts.
Proof.
  unfold updateRecords.
  destruct (updateRecords_range w order (set_currentIP ip d)); reflexivity.
Qed.

(** C8 fails as stated: in a pass in which the one request to the
    provider fails no write succeeds, the binding stays as it was, and
    [lastSet] changes all the same. *)
Lemma updateRecords_lastSet_without_write :
  let d := scenario_synced in
  let '(d', ev) :=
    updateRecords scenario_world_down ["home.example.com"] (net.IPv4 5 6 7 8) 7000000000 d in
  ev = [LogIPChanged "5.6.7.8" "1.2.3.4"; CallEditRecord "example.com" 1 "5.6.7.8"; LogEditError]
  ∧ recordMap d' = recordMap d
  ∧ lastSet d = 1000000000 ∧ lastSet d' = 7000000000.
Proof. vm_compute. auto. Qed.

(** The pass never removes a key. *)
Lemma updateRecords_visit_dom w name record d :
  dom (recordMap d) ⊆ dom (recordMap (updateRecords_visit w name record d).1).
Proof.
  unfold updateRecords_visit.
  repeat (case_decide || case_match); simpl; try done.
  rewrite dom_insert_L. set_solver.
Qed.

Lemma updateRecords_range_dom w order : ∀ d,
  dom (recordMap d) ⊆ dom (recordMap (updateRecords_range w order d).1).
Proof.
  induction order as [|name rest IH]; intros d; simpl; [done|].
  destruct (recordMap d !! name) as [record|]; [|apply IH].
  pose proof (updateRecords_visit_dom w name record d) as Hv.
  destruct (updateRecords_visit w name record d) as [d1 e1]; simpl in Hv.
  pose proof (IH d1) as Hr.
  destruct (updateRecords_range w rest d1) as [d2 e2]; simpl in *.
  set_solver.
Qed.

(** Names that are not in the map give no iteration. *)
Lemma updateRecords_range_absent w pre rest : ∀ d,
  (∀ name, name ∈ pre → recordMap d !! name = None) →
  updateRecords_range w (pre ++ rest) d = updateRecords_range w rest d.
Proof.
  induction pre as [|k pre IH]; intros d Hpre; simpl; [done|].
  rewrite (Hpre k) by set_solver.
  apply IH. intros name Hin. apply Hpre. set_solver.
Qed.

(** A successful edit stores the record of the provider under the
    registrable domain of the name. *)
Lemma updateRecords_visit_stores_domain w name record d hostname r StatusCode :
  godo.Data record ≠ net.String (currentIP d) →
  tld_Parse w ("http://" +:+ name) = Some hostname →
  EditRecord w (domainOf hostname) (godo.ID record)
    (net.String (currentIP d)) = godo.EditResponse r StatusCode true →
  StatusCode < StatusBadRequest →
  recordMap (updateRecords_visit w name record d).1
  = <[domainOf hostname := r]> (recordMap d).
Proof.
  intros Hdata Hparse Hedit Hstatus. unfold updateRecords_visit.
  rewrite decide_False by done. rewrite Hparse, Hedit. simpl.
  destruct (StatusBadRequest <=? StatusCode) eqn:E; [lia|done].
Qed.

(** C1 fails on the code: when the one tracked name is a subdomain whose
    record is edited with success, the pass stores the record under the
    registrable domain, a key that the map did not have, in whatever
    order Go ranges over the map. *)
Theorem updateRecords_adds_domain_key w order ip ts d name record hostname r StatusCode :
  recordMap d = {[ name := record ]} →
  range_order (recordMap d) order →
  godo.Data record ≠ net.String ip →
  tld_Parse w ("http://" +:+ name) = Some hostname →
  domainOf hostname ≠ name →
  EditRecord w (domainOf hostname) (godo.ID record)
    (net.String ip) = godo.EditResponse r StatusCode true →
  StatusCode < StatusBadRequest →
  let d' := (updateRecords w order ip ts d).1 in
  domainOf hostname ∈ dom (recordMap d')
  ∧ (domainOf hostname ∉ dom (recordMap d))
  ∧ dom (recordMap d') ≠ dom (recordMap d).
Proof.
  intros Hmap [_ Hcover] Hdata Hparse Hne Hedit Hstatus.
  set (domain := domainOf hostname) in *.
  assert (Hnotin : domain ∉ dom (recordMap d)).
  { rewrite Hmap, dom_singleton_L. set_solver. }
  assert (Hin : domain ∈ dom (recordMap (updateRecords w order ip ts d).1)).
  { assert (Hname : name ∈ order).
    { apply Hcover. rewrite Hmap, dom_singleton_L. set_solver. }
    apply list_elem_of_split_l in Hname as (pre & post & -> & Hpre).
    unfold updateRecords.
    rewrite updateRecords_range_absent; cycle 1.
    { intros k Hk. simpl. rewrite Hmap. apply lookup_singleton_ne.
      intros ->. done. }
    simpl. rewrite Hmap, lookup_singleton_eq.
    pose proof (updateRecords_visit_stores_domain w name record (set_currentIP ip d)
                  hostname r StatusCode Hdata Hparse Hedit Hstatus) as Hv.
    destruct (updateRecords_visit w name record (set_currentIP ip d)) as [d1 e1].
    simpl in Hv.
    pose proof (updateRecords_range_dom w post d1) as Hr.
    destruct (updateRecords_range w post d1) as [d2 e2]. simpl in *.
    apply Hr. rewrite Hv, dom_insert_L. set_solver. }
  simpl. split; [done|]. split; [done|].
  intros Heq. rewrite Heq in Hin. done.
Qed.

Lemma scenario_synced_order : range_order (recordMap scenario_synced) ["home.example.com"].
Proof.
  split; [repeat constructor; set_solver|].
  intros name. simpl. rewrite dom_singleton_L. set_solver.
Qed.

Lemma updateRecords_adds_domain_key_witness :
  let d' := (updateRecords scenario_world ["home.example.com"] (net.IPv4 5 6 7 8)
               7000000000 scenario_synced).1 in
  "example.com" ∈ dom (recordMap d')
  ∧ ("example.com" ∉ dom (recordMap scenario_synced))
  ∧ dom (recordMap d') ≠ dom (recordMap scenario_synced).
Proof.
  apply (updateRecords_adds_domain_key scenario_world ["home.example.com"]
           (net.IPv4 5 6 7 8) 7000000000 scenario_synced "home.example.com"
           (scenario_record 1 "home" "1.2.3.4")
           {| tld.Subdomain := "home"; tld.Domain := "example"; tld.TLD := "com" |}
           (scenario_record 1 "home" "5.6.7.8") 200).
  - reflexivity.
  - exact scenario_synced_order.
  - vm_compute. discriminate.
  - reflexivity.
  - vm_compute. discriminate.
  - reflexivity.
  - reflexivity.
Defined.

(** The text of an address is never empty, so the empty [Data] of the
    zero record differs from it. *)
Lemma append_nonempty_r (a b : string) : b ≠ "" → a +:+ b ≠ "".
Proof. destruct a; [done|]. intros _. discriminate. Qed.

Lemma ubtoa_cons v : ∃ c s, net.ubtoa v = String c s.
Proof. unfold net.ubtoa. repeat case_match; eauto. Qed.

Lemma printGroups_nonempty x y g run :
  net.printGroups (x :: y :: g) 0 run 0 false ≠ "".
Proof.
  destruct run as [[[|[|e0]] e1]|]; cbn [net.printGroups Nat.eqb orb].
  - discriminate.
  - apply append_nonempty_r, append_nonempty_r. discriminate.
  - apply append_nonempty_r, append_nonempty_r. discriminate.
  - apply append_nonempty_r, append_nonempty_r. discriminate.
Qed.

Lemma String_nonempty (ip : net.IP) : net.String ip ≠ "".
Proof.
  unfold net.String.
  destruct (length ip =? 0)%nat; [done|].
  destruct (length (net.To4 ip) =? net.IPv4len)%nat.
  { destruct (ubtoa_cons (nth 0 (net.To4 ip) 0)) as (c & s & ->). discriminate. }
  destruct (length ip =? net.IPv6len)%nat eqn:Hlen; [|discriminate].
  apply Nat.eqb_eq in Hlen.
  do 17 (destruct ip as [|? ip]; try discriminate Hlen).
  cbn [negb net.groups]. apply printGroups_nonempty.
Qed.

(** C3 fails as stated: for the binding that still holds the zero
    record the pass asks the provider to edit the record 0. *)
Lemma updateRecords_unresolved_not_skipped :
  let d := scenario_unresolved in
  recordMap d !! "home.example.com" = Some godo.zero
  ∧ (updateRecords scenario_world_down ["home.example.com"] (net.IPv4 5 6 7 8) 7000000000 d).2
    = [LogIPChanged "5.6.7.8" "<nil>"; CallEditRecord "example.com" 0 "5.6.7.8"; LogEditError].
Proof. vm_compute. auto. Qed.

(** C3, as the code has it: the pass has no test of the identity of
    the record. When the turn of a binding that holds the zero record
    comes, the pass logs and skips it only if the name does not parse;
    otherwise it asks the provider to edit the record 0 of the
    registrable domain to the new address, and it leaves the updater as
    it was when that request fails. *)
Theorem updateRecords_visit_zero_record w name d :
  match tld_Parse w ("http://" +:+ name) with
  | None => updateRecords_visit w name godo.zero d = (d, [LogUnableToParse name])
  | Some hostname =>
      let request := CallEditRecord (domainOf hostname) 0 (net.String (currentIP d)) in
      (∃ ev, (updateRecords_visit w name godo.zero d).2 = request :: ev)
      ∧ (EditRecord w (domainOf hostname) 0 (net.String (currentIP d)) = godo.EditError →
         updateRecords_visit w name godo.zero d = (d, [request; LogEditError]))
  end.
Proof.
  unfold updateRecords_visit.
  rewrite decide_False; cycle 1.
  { simpl. intros H. symmetry in H. by apply String_nonempty in H. }
  destruct (tld_Parse w ("http://" +:+ name)) as [hostname|]; [|done].
  simpl. split.
  - repeat case_match; eauto.
  - intros ->. done.
Qed.

(** The guard of the pass: a binding that already holds the text of the
    new address is skipped, with no request and no change. *)
Lemma updateRecords_visit_consistent w name record d :
  godo.Data record = net.String (currentIP d) →
  updateRecords_visit w name record d = (d, [LogConsistent]).
Proof. intros H. unfold updateRecords_visit. by rewrite decide_True. Qed.

(** A pass over a map whose bindings all hold the text of the address
    makes no request and leaves the map as it is. *)
Lemma updateRecords_range_consistent w order : ∀ d,
  (∀ name record, recordMap d !! name = Some record →
                  godo.Data record = net.String (currentIP d)) →
  let '(d', ev) := updateRecords_range w order d in
  d' = d ∧ Forall (fun e => e = LogConsistent) ev.
Proof.
  induction order as [|name rest IH]; intros d Hall; simpl; [done|].
  destruct (recordMap d !! name) as [record|] eqn:Hname; [|by apply IH].
  rewrite (updateRecords_visit_consistent w name record d) by eauto.
  specialize (IH d Hall). destruct (updateRecords_range w rest d) as [d' ev].
  destruct IH as [-> Hev]. split; [done|]. by constructor.
Qed.

(** C6 fails on the code, by the key of C1. The updater tracks
    example.com, whose binding already holds the new address 5.6.7.8, and
    home.example.com, which does not; the provider carries out every
    edit. In both orders of the range, the first pass overwrites the
    binding of example.com with the record of home.example.com, leaves
    the binding of home.example.com stale, and so the second pass, with
    the address unchanged, asks for the same edit again. *)
Theorem updateRecords_twice_edits_again :
  Forall (fun order =>
    let '(d1, ev1) :=
      updateRecords scenario_world order (net.IPv4 5 6 7 8) 7000000000 scenario_two_hosts in
    let '(d2, ev2) := updateRecords scenario_world order (net.IPv4 5 6 7 8) 8000000000 d1 in
    recordMap scenario_two_hosts !! "example.com" = Some (scenario_record 7 "@" "5.6.7.8")
    ∧ recordMap d1 !! "example.com" = Some (scenario_record 1 "home" "5.6.7.8")
    ∧ recordMap d1 !! "home.example.com" = Some (scenario_record 1 "home" "1.2.3.4")
    ∧ CallEditRecord "example.com" 1 "5.6.7.8" ∈ ev1
    ∧ CallEditRecord "example.com" 1 "5.6.7.8" ∈ ev2)
  [ ["example.com"; "home.example.com"]; ["home.example.com"; "example.com"] ].
Proof.
  repeat constructor; vm_compute; repeat split; try reflexivity;
    repeat (first [apply list_elem_of_here | apply list_elem_of_further]).
Qed.

(* ===================================================================== *)
(** ** The loop of Run *)
(* ===================================================================== *)

(** An error of [CheckIP] comes with the empty address. *)
Lemma CheckIP_error http address e :
  CheckIP http = (address, Some e) → address = "".
Proof.
  unfold CheckIP. destruct http as [msg|msg|StatusCode [body|]]; try congruence.
  destruct (StatusBadRequest <=? StatusCode); congruence.
Qed.

(** The tick when the probe is due and [CheckIP] returns an error: after
    the log line, the tick does with the nil address what it does with
    any address, and it always moves [nextCheck]. *)
Lemma Run_tick_probe_error w t d e :
  (CheckIP (probe t)).2 = Some e →
  shutdown d = false →
  nextCheck d ≤ now t →
  let next := time.Add (now t) (interval d) in
  Run_tick w t d
  = if net.Equal (currentIP d) []
    then (set_nextCheck next d,
          [LogError e; LogIP "<nil>" (tick t); LogUnchanged; LogNextCheck next], true)
    else let '(d1, ev) := updateRecords w (order t) [] (tick t) d in
         (set_nextCheck next d1,
          [LogError e; LogIP "<nil>" (tick t)] ++ ev ++ [LogNextCheck next], true).
Proof.
  intros Herr Hshutdown Hdue.
  destruct (CheckIP (probe t)) as [address err] eqn:Hcheck. simpl in Herr. subst err.
  pose proof (CheckIP_error _ _ _ Hcheck) as ->.
  unfold Run_tick. rewrite Hshutdown, Hcheck.
  assert (Hnow : time.Before (nextCheck d) (now t) || time.Equal (nextCheck d) (now t) = true).
  { unfold time.Before, time.Equal.
    destruct (nextCheck d <? now t) eqn:E1; [done|].
    destruct (nextCheck d =? now t) eqn:E2; [done|]. lia. }
  rewrite Hnow.
  change (net.ParseIP (strings.TrimSpace "")) with (@nil Z).
  destruct (net.Equal (currentIP d) []); simpl; [done|].
  pose proof (updateRecords_range_fields w (order t) (set_currentIP [] d)) as Hf.
  unfold updateRecords.
  destruct (updateRecords_range w (order t) _) as [d1 ev]. simpl in *.
  destruct Hf as (-> & _). done.
Qed.

(** C2 fails on the code: [Run] logs the error of [CheckIP] and goes
    on with the empty address. The updater holds 1.2.3.4 and the probe
    is due; the request of the probe fails, and so do the requests to the
    provider. The tick parses the empty address to nil, takes it for a
    change, runs the update pass with it, which asks the provider to set
    the record to the text of nil, and moves [nextCheck] by the interval:
    the tick one second later makes no probe. *)
Theorem Run_tick_probe_error_not_skipped :
  let d := scenario_synced in
  let t := {| tick := 7000000000; now := 7000000001;
              probe := TransportError "timeout"; order := ["home.example.com"] |} in
  let t' := {| tick := 8000000000; now := 8000000001;
               probe := TransportError "timeout"; order := ["home.example.com"] |} in
  let '(d1, ev1, continue1) := Run_tick scenario_world_down t d in
  CheckIP (probe t) = ("", Some (ErrUnpackingResponse "timeout"))
  ∧ ev1 = [LogError (ErrUnpackingResponse "timeout"); LogIP "<nil>" 7000000000;
           LogIPChanged "<nil>" "1.2.3.4"; CallEditRecord "example.com" 1 "<nil>";
           LogEditError; LogNextCheck 12000000001]
  ∧ currentIP d = net.IPv4 1 2 3 4 ∧ currentIP d1 = []
  ∧ lastSet d = 1000000000 ∧ lastSet d1 = 7000000000
  ∧ nextCheck d = 6000000000 ∧ nextCheck d1 = 12000000001
  ∧ Run_tick scenario_world_down t' d1 = (d1, [], true).
Proof. vm_compute. repeat split; reflexivity. Qed.

(* ===================================================================== *)
(** ** Configuration *)
(* ===================================================================== *)

(** [append] to a slice that is not nil is not nil. *)
Lemma append_not_nil {A} (l xs : list A) : append (Some l) xs = Some (l ++ xs).
Proof. reflexivity. Qed.

(** C9 fails on the code: the test [domains == nil] never holds, since
    [domains] is made with a literal and appended to. When DDNS_DOMAINS is
    unset or empty and the interval parses, [LoadConfigFromEnv] returns no
    error but a configuration whose one tracked name is the empty
    string. *)
Theorem LoadConfigFromEnv_accepts_no_domains ParseDuration env i :
  Getenv env "DDNS_DOMAINS" = "" →
  ParseDuration (Getenv env "DDNS_INTERVAL") = Some i →
  LoadConfigFromEnv ParseDuration env
  = inl {| DOToken := Getenv env "DDNS_DO_API_TOKEN"; Interval := i;
           Domains := Some [""];
           Debug := default false (strconv.ParseBool (Getenv env "DDNS_DEBUG")) |}.
Proof.
  intros Hdomains Hinterval. unfold LoadConfigFromEnv.
  rewrite Hinterval, Hdomains. reflexivity.
Qed.

Lemma LoadConfigFromEnv_accepts_no_domains_witness :
  LoadConfigFromEnv scenario_ParseDuration
    {[ "DDNS_INTERVAL" := "5s"; "DDNS_DO_API_TOKEN" := "token" ]}
  = inl {| DOToken := "token"; Interval := 5000000000; Domains := Some [""]; Debug := false |}.
Proof.
  rewrite (LoadConfigFromEnv_accepts_no_domains scenario_ParseDuration
             {[ "DDNS_INTERVAL" := "5s"; "DDNS_DO_API_TOKEN" := "token" ]} 5000000000).
  - vm_compute. reflexivity.
  - vm_compute. reflexivity.
  - vm_compute. reflexivity.
Defined.

(** The error for DDNS_DOMAINS is returned in no environment. *)
Lemma LoadConfigFromEnv_never_requires_domains ParseDuration env :
  LoadConfigFromEnv ParseDuration env ≠ inr ErrDomainsRequired.
Proof.
  unfold LoadConfigFromEnv.
  destruct (ParseDuration (Getenv env "DDNS_INTERVAL")); [|discriminate].
  rewrite append_not_nil. discriminate.
Qed.

(* ===================================================================== *)
(** ** Shutdown *)
(* ===================================================================== *)

Lemma Shutdown_loop_waits ctx pre rest :
  Forall (waits ctx) pre →
  Shutdown_loop ctx (pre ++ rest) = Shutdown_loop ctx rest.
Proof.
  induction 1 as [|t pre Ht _ IH]; [done|].
  simpl. unfold waits in Ht. simpl in Ht.
  destruct (match ctx with Some _ => _ | None => _ end); [done|].
  destruct (completeRead t); [done|]. exact IH.
Qed.

(** C10: [Shutdown] makes no test before the first tick of its ticker:
    with no tick delivered it has not returned, whatever the deadline and
    [d.complete] are. In every iteration the deadline is tested before
    [d.complete]: in the first iteration that starts after the deadline,
    [Shutdown] returns the timeout error, also when the run loop has set
    [d.complete]. *)
Theorem Shutdown_deadline_before_complete ctx d deadline pre t rest :
  ctx = Some deadline →
  Forall (waits ctx) pre →
  deadline < now1 t →
  Shutdown ctx [] (set_complete true d) = (set_shutdown true (set_complete true d), None)
  ∧ Shutdown ctx (pre ++ t :: rest) d = (set_shutdown true d, Some (Some ErrShutdownTimeout)).
Proof.
  intros -> Hpre Hlate. split; [reflexivity|].
  unfold Shutdown. rewrite Shutdown_loop_waits by done.
  simpl. unfold time.After.
  destruct (deadline <? now1 t) eqn:E; [reflexivity|lia].
Qed.

Lemma Shutdown_deadline_before_complete_witness :
  let ctx := Some 5000000000 in
  let pre := [ {| now1 := 1000000000; now2 := 1000000001; completeRead := false |};
               {| now1 := 2000000000; now2 := 2000000001; completeRead := false |} ] in
  let t := {| now1 := 5000000007; now2 := 5000000008; completeRead := true |} in
  Shutdown ctx [] (set_complete true scenario_synced)
  = (set_shutdown true (set_complete true scenario_synced), None)
  ∧ Shutdown ctx (pre ++ [t]) scenario_synced
    = (set_shutdown true scenario_synced, Some (Some ErrShutdownTimeout)).
Proof.
  apply (Shutdown_deadline_before_complete (Some 5000000000) scenario_synced 5000000000
           [ {| now1 := 1000000000; now2 := 1000000001; completeRead := false |};
             {| now1 := 2000000000; now2 := 2000000001; completeRead := false |} ]
           {| now1 := 5000000007; now2 := 5000000008; completeRead := true |} []).
  - reflexivity.
  - repeat constructor.
  - simpl. lia.
Defined.

(** The two readings of the clock in the test of the deadline: when the
    first reading is the deadline itself and the second one is later,
    neither [After] nor [Equal] holds, and an iteration that reads
    [d.complete] set returns nil. *)
Example Shutdown_at_the_deadline :
  Shutdown_loop (Some 5000000000)
    [ {| now1 := 5000000000; now2 := 5000000001; completeRead := true |} ]
  = Some None.
Proof. reflexivity. Qed.

(* ===================================================================== *)
(** ** Trimming twice *)
(* ===================================================================== *)

Section TrimRunes.

Variable p1 : Z → bool.
Variable p2 : Z → Z → bool.
Variable p3 : Z → Z → Z → bool.

Local Abbreviation trim := (strings.trimRunes p1 p2 p3).
Local Abbreviation starts := (strings.startsRune p1 p2 p3).

Lemma trimRunes_fixed l : starts l = false → trim l = l.
Proof.
  destruct l as [|c1 [|c2 [|c3 r3]]]; simpl; [done|..];
    repeat (destruct (p1 _) || destruct (p2 _ _) || destruct (p3 _ _ _));
    simpl; congruence.
Qed.

Lemma trimRunes_spec n : ∀ l, (length l ≤ n)%nat →
  starts (trim l) = false ∧ ∃ s, l = s ++ trim l.
Proof.
  induction n as [|n IH]; intros l Hlen.
  { destruct l; [|simpl in Hlen; lia]. split; [done|]. by exists []. }
  destruct l as [|c1 r1]; [split; [done|]; by exists []|].
  simpl in Hlen.
  assert (Hhere : starts (c1 :: r1) = false →
            starts (c1 :: r1) = false ∧ ∃ s, c1 :: r1 = s ++ c1 :: r1).
  { intros H. split; [done|]. by exists []. }
  cbn [strings.trimRunes]. destruct (p1 (code c1)) eqn:E1.
  { destruct (IH r1) as [Hs [s Hs']]; [lia|]. split; [done|].
    exists (c1 :: s). simpl. congruence. }
  destruct r1 as [|c2 r2].
  { apply Hhere. simpl. by rewrite E1. }
  simpl in Hlen. destruct (p2 (code c1) (code c2)) eqn:E2.
  { destruct (IH r2) as [Hs [s Hs']]; [lia|]. split; [done|].
    exists (c1 :: c2 :: s). simpl. congruence. }
  destruct r2 as [|c3 r3].
  { apply Hhere. simpl. by rewrite E1, E2. }
  simpl in Hlen. destruct (p3 (code c1) (code c2) (code c3)) eqn:E3.
  { destruct (IH r3) as [Hs [s Hs']]; [lia|]. split; [done|].
    exists (c1 :: c2 :: c3 :: s). simpl. congruence. }
  apply Hhere. simpl. by rewrite E1, E2, E3.
Qed.

Lemma trimRunes_starts l : starts (trim l) = false.
Proof. by apply (trimRunes_spec (length l) l). Qed.

Lemma trimRunes_suffix l : ∃ s, l = s ++ trim l.
Proof. by apply (trimRunes_spec (length l) l). Qed.

Lemma trimRunes_idemp l : trim (trim l) = trim l.
Proof. apply trimRunes_fixed, trimRunes_starts. Qed.

(** A list that starts with no white-space rune has no prefix that
    does. *)
Lemma startsRune_prefix p t : starts (p ++ t) = false → starts p = false.
Proof.
  destruct p as [|c1 [|c2 [|c3 r3]]]; simpl; [done|..];
    repeat (destruct (p1 _) || destruct (p2 _ _) || destruct (p3 _ _ _));
    simpl; try congruence; destruct t as [|? [|? ?]]; simpl; congruence.
Qed.

End TrimRunes.

Lemma trimRight_prefix l : ∃ t, l = strings.trimRight l ++ t.
Proof.
  unfold strings.trimRight, strings.trimRightRev.
  destruct (trimRunes_suffix strings.asciiSpace (fun c1 c2 => strings.space2 c2 c1)
              (fun c1 c2 c3 => strings.space3 c3 c2 c1) (rev l)) as [s Hs].
  exists (rev s). rewrite <- rev_app_distr, <- Hs. by rewrite rev_involutive.
Qed.

Lemma trimRight_idemp l : strings.trimRight (strings.trimRight l) = strings.trimRight l.
Proof.
  unfold strings.trimRight, strings.trimRightRev.
  by rewrite rev_involutive, trimRunes_idemp.
Qed.

Lemma trimLeft_trimRight l :
  strings.trimLeft (strings.trimRight (strings.trimLeft l))
  = strings.trimRight (strings.trimLeft l).
Proof.
  destruct (trimRight_prefix (strings.trimLeft l)) as [t Ht].
  apply trimRunes_fixed, (startsRune_prefix _ _ _ _ t).
  rewrite <- Ht. apply trimRunes_starts.
Qed.

(** [TrimSpace] leaves a trimmed string as it is: the second
    [TrimSpace] of [Run], on the result of [CheckIP], changes nothing. *)
Lemma TrimSpace_idemp s : strings.TrimSpace (strings.TrimSpace s) = strings.TrimSpace s.
Proof.
  unfold strings.TrimSpace.
  rewrite list_ascii_of_string_of_list_ascii.
  by rewrite trimLeft_trimRight, trimRight_idemp.
Qed.

(* ===================================================================== *)
(** ** The synchronization *)
(* ===================================================================== *)

Lemma syncRecords_visit_recordMap w name d :
  recordMap (syncRecords_visit w name d).1
  = match syncRecords_found w name with
    | Some record => <[name := record]> (recordMap d)
    | None => recordMap d
    end.
Proof.
  unfold syncRecords_visit, syncRecords_found.
  destruct (tld_Parse w ("http://" +:+ name)) as [hostname|]; [|done].
  simpl. destruct (RecordsByTypeAndName w _ _ _) as [[|record ?]|]; done.
Qed.

(** After the loop, a name of the map that came up in the range holds
    what the synchronization found for it, or what it held before if
    nothing was found; whatever happened to the other names. *)
Lemma syncRecords_range_lookup w order : ∀ d name,
  recordMap (syncRecords_range w order d).1 !! name
  = if decide (name ∈ order ∧ is_Some (recordMap d !! name))
    then match syncRecords_found w name with
         | Some record => Some record
         | None => recordMap d !! name
         end
    else recordMap d !! name.
Proof.
  induction order as [|k rest IH]; intros d name; [simpl; done|].
  cbn [syncRecords_range].
  destruct (recordMap d !! k) as [old|] eqn:Hk.
  - pose proof (syncRecords_visit_recordMap w k d) as Hv.
    destruct (syncRecords_visit w k d) as [d1 e1]. simpl in Hv.
    specialize (IH d1 name).
    destruct (syncRecords_range w rest d1) as [d2 e2]. simpl in *.
    rewrite IH, Hv. clear IH Hv.
    destruct (decide (name = k)) as [->|Hne].
    + rewrite Hk.
      destruct (syncRecords_found w k) as [record|].
      * rewrite lookup_insert_eq.
        rewrite (decide_True (P := k ∈ k :: rest ∧ _)) by (split; [left|eauto]).
        by case_decide.
      * rewrite Hk.
        rewrite (decide_True (P := k ∈ k :: rest ∧ _)) by (split; [left|eauto]).
        by case_decide.
    + assert (Hsame : match syncRecords_found w k with
                      | Some record => <[k:=record]> (recordMap d)
                      | None => recordMap d
                      end !! name = recordMap d !! name).
      { destruct (syncRecords_found w k); [by rewrite lookup_insert_ne|done]. }
      rewrite Hsame.
      destruct (decide (name ∈ rest ∧ is_Some (recordMap d !! name))) as [[H1 H2]|Hn].
      * rewrite decide_True; [done|]. split; [by right|done].
      * rewrite decide_False; [done|].
        intros [H1 H2]. apply Hn. split; [|done].
        apply elem_of_cons in H1 as [?|?]; [congruence|done].
  - rewrite IH.
    destruct (decide (name ∈ rest ∧ is_Some (recordMap d !! name))) as [[H1 H2]|Hn].
    + rewrite decide_True; [done|]. split; [by right|done].
    + rewrite decide_False; [done|].
      intros [H1 H2]. apply Hn. split; [|done].
      apply elem_of_cons in H1 as [->|?]; [|done].
      rewrite Hk in H2. by destruct H2.
Qed.

Lemma syncRecords_range_fields w order : ∀ d,
  let d' := (syncRecords_range w order d).1 in
  interval d' = interval d ∧ lastSet d' = lastSet d ∧ nextCheck d' = nextCheck d
  ∧ currentIP d' = currentIP d ∧ shutdown d' = shutdown d ∧ complete d' = complete d.
Proof.
  induction order as [|name rest IH]; intros d; simpl; [auto 10|].
  destruct (recordMap d !! name); [|apply IH].
  assert (Hv : let d1 := (syncRecords_visit w name d).1 in
    interval d1 = interval d ∧ lastSet d1 = lastSet d ∧ nextCheck d1 = nextCheck d
    ∧ currentIP d1 = currentIP d ∧ shutdown d1 = shutdown d ∧ complete d1 = complete d).
  { unfold syncRecords_visit. repeat case_match; simpl; auto 10. }
  destruct (syncRecords_visit w name d) as [d1 e1]; simpl in Hv.
  pose proof (IH d1) as Hr.
  destruct (syncRecords_range w rest d1) as [d2 e2]; simpl in *.
  intuition congruence.
Qed.

(** C7: [syncRecords] returns no error, whatever happens to the
    names. In any order of the range, a name that does not parse, whose
    lookup fails or whose lookup gives no record keeps the binding it
    had, and every other name gets the first record of its own lookup:
    no failure of one name reaches another. Nothing else of the updater
    changes. *)
Theorem syncRecords_isolates_failures w order d :
  range_order (recordMap d) order →
  let '(d', ev, err) := syncRecords w order d in
  err = None
  ∧ (∀ name, name ∈ dom (recordMap d) →
       match tld_Parse w ("http://" +:+ name) with
       | None => recordMap d' !! name = recordMap d !! name
       | Some hostname =>
           match RecordsByTypeAndName w (domainOf hostname) "A"
                   (strings.TrimPrefix
                      (tld.Subdomain hostname +:+ "." +:+ domainOf hostname) ".") with
           | None | Some [] => recordMap d' !! name = recordMap d !! name
           | Some (record :: _) => recordMap d' !! name = Some record
           end
       end)
  ∧ dom (recordMap d') = dom (recordMap d)
  ∧ d' = set_recordMap (recordMap d') d.
Proof.
  intros [_ Hcover]. unfold syncRecords.
  pose proof (syncRecords_range_lookup w order d) as Hlookup.
  pose proof (syncRecords_range_fields w order d) as Hfields.
  destruct (syncRecords_range w order d) as [d' ev]. simpl in *.
  split; [done|]. split; [|split].
  - intros name Hname. rewrite Hlookup.
    rewrite decide_True by (split; [by apply Hcover|by apply elem_of_dom]).
    unfold syncRecords_found.
    destruct (tld_Parse w ("http://" +:+ name)) as [hostname|]; [|done].
    destruct (RecordsByTypeAndName w _ _ _) as [[|record ?]|]; done.
  - apply set_eq. intros name. rewrite !elem_of_dom, Hlookup.
    case_decide as H; [|done].
    destruct H as [_ Hsome].
    destruct (syncRecords_found w name); [|done].
    split; eauto.
  - destruct d, d'; unfold set_recordMap; simpl in *.
    destruct Hfields as (-> & -> & -> & -> & -> & ->). done.
Qed.

Lemma scenario_three_hosts_order :
  range_order (recordMap scenario_three_hosts)
    ["no such host"; "example.com"; "home.example.com"].
Proof.
  split.
  - apply (bool_decide_unpack _). vm_compute. exact I.
  - intros name. unfold scenario_three_hosts, NewDDNSUpdater. simpl.
    rewrite !dom_insert_L. set_solver.
Qed.

Lemma syncRecords_isolates_failures_witness :
  let w := scenario_world in
  let d := scenario_three_hosts in
  let '(d', ev, err) := syncRecords w ["no such host"; "example.com"; "home.example.com"] d in
  err = None
  ∧ (∀ name, name ∈ dom (recordMap d) →
       match tld_Parse w ("http://" +:+ name) with
       | None => recordMap d' !! name = recordMap d !! name
       | Some hostname =>
           match RecordsByTypeAndName w (domainOf hostname) "A"
                   (strings.TrimPrefix
                      (tld.Subdomain hostname +:+ "." +:+ domainOf hostname) ".") with
           | None | Some [] => recordMap d' !! name = recordMap d !! name
           | Some (record :: _) => recordMap d' !! name = Some record
           end
       end)
  ∧ dom (recordMap d') = dom (recordMap d)
  ∧ d' = set_recordMap (recordMap d') d.
Proof.
  exact (syncRecords_isolates_failures scenario_world
           ["no such host"; "example.com"; "home.example.com"] scenario_three_hosts
           scenario_three_hosts_order).
Defined.

(** The scenario of the witness, computed: the name that does not parse
    and the name without a record stay unresolved, the third name is
    synchronized. *)
Example syncRecords_three_hosts :
  let '(d', ev, err) :=
    syncRecords scenario_world ["no such host"; "example.com"; "home.example.com"]
      scenario_three_hosts in
  err = None
  ∧ recordMap d' !! "no such host" = Some godo.zero
  ∧ recordMap d' !! "example.com" = Some godo.zero
  ∧ recordMap d' !! "home.example.com" = Some (scenario_record 1 "home" "1.2.3.4")
  ∧ ev = [LogSyncing 3; LogUnableToParse "no such host";
          LogSearching "example.com" "example.com" "example.com";
          CallRecordsByTypeAndName "example.com" "A" "example.com";
          LogNoRecords "example.com" "" "example.com";
          LogSearching "example.com" "home.example.com" "home.example.com";
          CallRecordsByTypeAndName "example.com" "A" "home.example.com"].
Proof. vm_compute. repeat split; reflexivity. Qed.

(* ===================================================================== *)
(** ** A tick with an answer from the probe *)
(* ===================================================================== *)

(** The tick when the probe is due and its request is answered with a
    status below 400 and a body that can be read: [Run] compares the
    parsed body with [d.currentIP] by [net.IP.Equal]. *)
Lemma Run_tick_answered w t d StatusCode body :
  probe t = Response StatusCode (Some body) →
  StatusCode < StatusBadRequest →
  shutdown d = false →
  nextCheck d ≤ now t →
  let ip := net.ParseIP (strings.TrimSpace body) in
  let next := time.Add (now t) (interval d) in
  CheckIP (probe t) = (strings.TrimSpace body, None)
  ∧ Run_tick w t d
    = if net.Equal (currentIP d) ip
      then (set_nextCheck next d,
            [LogIP (net.String ip) (tick t); LogUnchanged; LogNextCheck next], true)
      else let '(d1, ev) := updateRecords w (order t) ip (tick t) d in
           (set_nextCheck next d1,
            [LogIP (net.String ip) (tick t)] ++ ev ++ [LogNextCheck next], true).
Proof.
  intros Hprobe Hstatus Hshutdown Hdue.
  assert (Hcheck : CheckIP (probe t) = (strings.TrimSpace body, None)).
  { rewrite Hprobe. simpl. destruct (StatusBadRequest <=? StatusCode) eqn:E; [lia|done]. }
  split; [done|].
  unfold Run_tick. rewrite Hshutdown, Hcheck, TrimSpace_idemp.
  assert (Hnow : time.Before (nextCheck d) (now t) || time.Equal (nextCheck d) (now t) = true).
  { unfold time.Before, time.Equal.
    destruct (nextCheck d <? now t) eqn:E1; [done|].
    destruct (nextCheck d =? now t) eqn:E2; [done|]. lia. }
  rewrite Hnow.
  destruct (net.Equal (currentIP d) (net.ParseIP (strings.TrimSpace body))); simpl; [done|].
  pose proof (updateRecords_range_fields w (order t)
                (set_currentIP (net.ParseIP (strings.TrimSpace body)) d)) as Hf.
  unfold updateRecords.
  destruct (updateRecords_range w (order t) _) as [d1 ev]. simpl in *.
  destruct Hf as (-> & _). done.
Qed.

(** C4 fails as stated: a body that is no address is not a failure
    of the probe. The updater knows no address yet and the probe is due;
    the answer is a page of text. [CheckIP] returns it with no error,
    the tick logs the nil address and moves [nextCheck] by the interval,
    so the state changes and the tick one second later makes no probe. *)
Lemma Run_tick_unparsable_changes_state :
  let d := scenario_fresh in
  let t := {| tick := 1000000000; now := 1000000001;
              probe := Response 200 (Some "<html>busy</html>");
              order := ["home.example.com"] |} in
  let t' := {| tick := 2000000000; now := 2000000001;
               probe := Response 200 (Some "1.2.3.4"); order := ["home.example.com"] |} in
  let '(d1, ev1, continue1) := Run_tick scenario_world t d in
  net.ParseIP (strings.TrimSpace "<html>busy</html>") = []
  ∧ CheckIP (probe t) = ("<html>busy</html>", None)
  ∧ ev1 = [LogIP "<nil>" 1000000000; LogUnchanged; LogNextCheck 6000000001]
  ∧ nextCheck d = 1000000000 ∧ nextCheck d1 = 6000000001 ∧ d1 ≠ d
  ∧ Run_tick scenario_world t' d1 = (d1, [], true).
Proof. vm_compute. repeat split; try reflexivity. discriminate. Qed.

(** C4, as the code has it: a body that is no address, in an answer
    with a status below 400, is no error of [CheckIP]; [Run] parses it
    to the nil address and logs that. The tick does not end the loop,
    and it moves [nextCheck] to [now] plus the interval, so the next
    probe comes an interval later. While the updater knows no address,
    nil equals nil: no update pass runs and nothing else changes. *)
Theorem Run_tick_unparsable_body w t d StatusCode body :
  probe t = Response StatusCode (Some body) →
  StatusCode < StatusBadRequest →
  net.ParseIP (strings.TrimSpace body) = [] →
  shutdown d = false →
  nextCheck d ≤ now t →
  let next := time.Add (now t) (interval d) in
  CheckIP (probe t) = (strings.TrimSpace body, None)
  ∧ (∃ d' ev, Run_tick w t d = (d', LogIP "<nil>" (tick t) :: ev, true)
              ∧ nextCheck d' = next)
  ∧ (currentIP d = [] →
     Run_tick w t d
     = (set_nextCheck next d, [LogIP "<nil>" (tick t); LogUnchanged; LogNextCheck next], true)).
Proof.
  intros Hprobe Hstatus Hnil Hshutdown Hdue.
  destruct (Run_tick_answered w t d StatusCode body Hprobe Hstatus Hshutdown Hdue)
    as [Hcheck Htick].
  rewrite Hnil in Htick. simpl in *.
  split; [done|]. split.
  - rewrite Htick. destruct (net.Equal (currentIP d) []).
    + eauto.
    + destruct (updateRecords w (order t) [] (tick t) d) as [d1 ev]. simpl. eauto.
  - intros Hunset. rewrite Htick, Hunset. reflexivity.
Qed.

Lemma Run_tick_unparsable_body_witness :
  let t := {| tick := 1000000000; now := 1000000001;
              probe := Response 200 (Some "<html>busy</html>");
              order := ["home.example.com"] |} in
  let d := scenario_fresh in
  let next := time.Add (now t) (interval d) in
  CheckIP (probe t) = (strings.TrimSpace "<html>busy</html>", None)
  ∧ (∃ d' ev, Run_tick scenario_world t d = (d', LogIP "<nil>" (tick t) :: ev, true)
              ∧ nextCheck d' = next)
  ∧ (currentIP d = [] →
     Run_tick scenario_world t d
     = (set_nextCheck next d, [LogIP "<nil>" (tick t); LogUnchanged; LogNextCheck next], true)).
Proof.
  apply (Run_tick_unparsable_body scenario_world
           {| tick := 1000000000; now := 1000000001;
              probe := Response 200 (Some "<html>busy</html>");
              order := ["home.example.com"] |}
           scenario_fresh 200 "<html>busy</html>").
  - reflexivity.
  - reflexivity.
  - vm_compute. reflexivity.
  - reflexivity.
  - simpl. lia.
Defined.

(** [Equal] on addresses of one length is the equality of the bytes. *)
Lemma Equal_same_length (ip x : net.IP) :
  length ip = length x → (net.Equal ip x = true ↔ ip = x).
Proof.
  intros Hlen. unfold net.Equal, net.bytesEqual.
  rewrite (proj2 (Nat.eqb_eq _ _) Hlen).
  apply bool_decide_eq_true.
Qed.

(** [Equal] takes an address of four bytes and the same address in
    sixteen bytes for equal. *)
Lemma Equal_IPv4 a b c d :
  net.Equal [a; b; c; d] (net.IPv4 a b c d) = true
  ∧ net.Equal (net.IPv4 a b c d) [a; b; c; d] = true.
Proof.
  unfold net.Equal, net.bytesEqual, net.IPv4. simpl.
  rewrite !bool_decide_eq_true_2; done.
Qed.

(** C5 fails as stated: the IPv4 form of an address and its
    IPv4-mapped IPv6 form are not distinct. The updater holds 1.2.3.4 and
    the probe answers with ::ffff:1.2.3.4: the tick finds the address
    unchanged. [ParseIP] gives both texts the same sixteen bytes, and
    [Equal] takes the four bytes 1.2.3.4 for the same address too,
    though the bytes differ. *)
Lemma Run_tick_mapped_form_unchanged :
  let d := scenario_synced in
  let t := {| tick := 7000000000; now := 7000000001;
              probe := Response 200 (Some "::ffff:1.2.3.4");
              order := ["home.example.com"] |} in
  currentIP d = net.ParseIP "1.2.3.4"
  ∧ (Run_tick scenario_world t d).1.2
    = [LogIP "1.2.3.4" 7000000000; LogUnchanged; LogNextCheck 12000000001]
  ∧ net.Equal (net.ParseIP "1.2.3.4") (net.ParseIP "::ffff:1.2.3.4") = true
  ∧ net.Equal [1; 2; 3; 4] (net.ParseIP "::ffff:1.2.3.4") = true
  ∧ [1; 2; 3; 4] ≠ net.ParseIP "::ffff:1.2.3.4".
Proof. vm_compute. repeat split; try reflexivity. discriminate. Qed.

(** C5, as the code has it: for an address that the probe gave, the
    tick decides between changed and unchanged by [net.IP.Equal] against
    [d.currentIP], and runs the update pass exactly when [Equal] is
    false. [Equal] compares addresses of one length byte by byte, and
    takes the IPv4 form of an address and its IPv4-mapped IPv6 form for
    equal. *)
Theorem Run_tick_compares_by_Equal w t d StatusCode body :
  probe t = Response StatusCode (Some body) →
  StatusCode < StatusBadRequest →
  shutdown d = false →
  nextCheck d ≤ now t →
  let ip := net.ParseIP (strings.TrimSpace body) in
  let next := time.Add (now t) (interval d) in
  Run_tick w t d
  = (if net.Equal (currentIP d) ip
     then (set_nextCheck next d,
           [LogIP (net.String ip) (tick t); LogUnchanged; LogNextCheck next], true)
     else let '(d1, ev) := updateRecords w (order t) ip (tick t) d in
          (set_nextCheck next d1,
           [LogIP (net.String ip) (tick t)] ++ ev ++ [LogNextCheck next], true))
  ∧ (∀ x y : net.IP, length x = length y → (net.Equal x y = true ↔ x = y))
  ∧ (∀ a b c e, net.Equal [a; b; c; e] (net.IPv4 a b c e) = true
                ∧ net.Equal (net.IPv4 a b c e) [a; b; c; e] = true).
Proof.
  intros Hprobe Hstatus Hshutdown Hdue. split; [|split].
  - by apply (Run_tick_answered w t d StatusCode body).
  - apply Equal_same_length.
  - apply Equal_IPv4.
Qed.

Lemma Run_tick_compares_by_Equal_witness :
  let t := {| tick := 7000000000; now := 7000000001;
              probe := Response 200 (Some " 5.6.7.8 ");
              order := ["home.example.com"] |} in
  let d := scenario_synced in
  let ip := net.ParseIP (strings.TrimSpace " 5.6.7.8 ") in
  let next := time.Add (now t) (interval d) in
  Run_tick scenario_world t d
  = (if net.Equal (currentIP d) ip
     then (set_nextCheck next d,
           [LogIP (net.String ip) (tick t); LogUnchanged; LogNextCheck next], true)
     else let '(d1, ev) := updateRecords scenario_world (order t) ip (tick t) d in
          (set_nextCheck next d1,
           [LogIP (net.String ip) (tick t)] ++ ev ++ [LogNextCheck next], true))
  ∧ (∀ x y : net.IP, length x = length y → (net.Equal x y = true ↔ x = y))
  ∧ (∀ a b c e, net.Equal [a; b; c; e] (net.IPv4 a b c e) = true
                ∧ net.Equal (net.IPv4 a b c e) [a; b; c; e] = true).
Proof.
  apply (Run_tick_compares_by_Equal scenario_world
           {| tick := 7000000000; now := 7000000001;
              probe := Response 200 (Some " 5.6.7.8 ");
              order := ["home.example.com"] |}
           scenario_synced 200 " 5.6.7.8 ").
  - reflexivity.
  - reflexivity.
  - reflexivity.
  - simpl. lia.
Defined.

(* ===================================================================== *)
(** ** Configuration and start *)
(* ===================================================================== *)

Lemma foldl_insert_zero_lookup (l : list string) : ∀ (m : gmap string godo.DomainRecord) name,
  foldl (fun (m : gmap string godo.DomainRecord) domain => <[domain := godo.zero]> m) m l !! name
  = if decide (name ∈ l) then Some godo.zero else m !! name.
Proof.
  induction l as [|x l IH]; intros m name; [simpl; done|].
  cbn [foldl]. rewrite IH. destruct (decide (name ∈ l)) as [Hin|Hnin].
  - rewrite decide_True; [done|]. by right.
  - destruct (decide (name = x)) as [->|Hne].
    + rewrite lookup_insert_eq. rewrite decide_True; [done|]. by left.
    + rewrite lookup_insert_ne by done. rewrite decide_False; [done|].
      intros [?|?]%elem_of_cons; done.
Qed.

(** X1. The updater that [NewDDNSUpdater] makes binds exactly the
    configured names, each to the zero record, a name that is configured
    twice once; the first probe is due at once, no address is known and
    no shutdown is under way. *)
Theorem NewDDNSUpdater_bindings domains i now :
  let d := NewDDNSUpdater domains i now in
  (∀ name, recordMap d !! name
           = if decide (name ∈ default [] domains) then Some godo.zero else None)
  ∧ dom (recordMap d) = list_to_set (default [] domains)
  ∧ interval d = i ∧ nextCheck d = now ∧ lastSet d = time.zero
  ∧ currentIP d = [] ∧ shutdown d = false ∧ complete d = false.
Proof.
  simpl. split; [|split; [|done]].
  - intros name. by rewrite foldl_insert_zero_lookup, lookup_empty.
  - apply set_eq. intros name.
    rewrite elem_of_dom, foldl_insert_zero_lookup, lookup_empty, elem_of_list_to_set.
    case_decide as Hin.
    + split; [done|eauto].
    + split; [by intros [? ?]|done].
Qed.

Lemma rev_app_append (s acc t : string) :
  String.rev_app s acc +:+ t = String.rev_app s (acc +:+ t).
Proof. revert acc. induction s as [|c s IH]; intros acc; simpl; [done|]. by rewrite IH. Qed.

Lemma splitByte_cons sep : ∀ s cur, ∃ x rest, strings.splitByte sep cur s = x :: rest.
Proof.
  induction s as [|c s IH]; intros cur; simpl; [eauto|].
  case_decide; eauto.
Qed.

Lemma Join_splitByte sep : ∀ s cur,
  Join (strings.splitByte sep cur s) (String sep "") = String.rev cur +:+ s.
Proof.
  induction s as [|c s IH]; intros cur; simpl.
  { unfold String.rev. rewrite rev_app_append. done. }
  case_decide as Hc.
  - subst c. destruct (splitByte_cons sep s "") as (x & rest & Hx).
    specialize (IH ""). rewrite Hx in *. cbn [Join].
    cbn [Join] in IH. rewrite IH. done.
  - rewrite IH. unfold String.rev. simpl. rewrite !rev_app_append. done.
Qed.

Lemma length_splitByte sep : ∀ s cur,
  length (strings.splitByte sep cur s) = S (countByte sep s).
Proof.
  induction s as [|c s IH]; intros cur; simpl; [done|].
  case_decide; simpl; by rewrite IH.
Qed.

(** X2. A configuration that loads holds the interval as parsed and, as
    tracked names, the pieces of DDNS_DOMAINS between its commas, as they
    are (nothing is trimmed and empty pieces count): joined with commas
    they give the value of the variable back, and there is one more of
    them than there are commas. *)
Theorem LoadConfigFromEnv_domains ParseDuration env cfg :
  LoadConfigFromEnv ParseDuration env = inl cfg →
  ParseDuration (Getenv env "DDNS_INTERVAL") = Some (Interval cfg)
  ∧ DOToken cfg = Getenv env "DDNS_DO_API_TOKEN"
  ∧ ∃ domains, Domains cfg = Some domains
      ∧ Join domains "," = Getenv env "DDNS_DOMAINS"
      ∧ length domains = S (countByte "," (Getenv env "DDNS_DOMAINS")).
Proof.
  unfold LoadConfigFromEnv.
  destruct (ParseDuration (Getenv env "DDNS_INTERVAL")) as [i|]; [|discriminate].
  simpl. intros [= <-]. simpl. split; [done|]. split; [done|].
  eexists. split; [done|]. unfold strings.Split. split.
  - by rewrite Join_splitByte.
  - apply length_splitByte.
Qed.

Lemma LoadConfigFromEnv_domains_witness :
  let env : gmap string string :=
    {[ "DDNS_INTERVAL" := "5s"; "DDNS_DOMAINS" := "home.example.com, example.com,," ]} in
  let cfg := {| DOToken := ""; Interval := 5000000000;
                Domains := Some ["home.example.com"; " example.com"; ""; ""];
                Debug := false |} in
  scenario_ParseDuration (Getenv env "DDNS_INTERVAL") = Some (Interval cfg)
  ∧ DOToken cfg = Getenv env "DDNS_DO_API_TOKEN"
  ∧ ∃ domains, Domains cfg = Some domains
      ∧ Join domains "," = Getenv env "DDNS_DOMAINS"
      ∧ length domains = S (countByte "," (Getenv env "DDNS_DOMAINS")).
Proof.
  apply (LoadConfigFromEnv_domains scenario_ParseDuration
           {[ "DDNS_INTERVAL" := "5s"; "DDNS_DOMAINS" := "home.example.com, example.com,," ]}
           {| DOToken := ""; Interval := 5000000000;
              Domains := Some ["home.example.com"; " example.com"; ""; ""];
              Debug := false |}).
  vm_compute. reflexivity.
Defined.

(** X3. The start of [main] ends in the panic of the nil configuration
    exactly when DDNS_INTERVAL does not parse, after logging that error;
    nothing else stops it. Otherwise the server is made with the parsed
    interval, its first probe due at once, and exactly the pieces of
    DDNS_DOMAINS as names, each bound to the zero record. *)
Theorem main_setup_outcome ParseDuration env now :
  match ParseDuration (Getenv env "DDNS_INTERVAL") with
  | None => main_setup ParseDuration env now = (Some ErrParseInterval, Panic)
  | Some i =>
      ∃ debug server,
        main_setup ParseDuration env now = (None, Started debug server)
        ∧ interval server = i ∧ nextCheck server = now
        ∧ ∀ name,
            recordMap server !! name
            = if decide (name ∈ strings.Split (Getenv env "DDNS_DOMAINS") ",")
              then Some godo.zero else None
  end.
Proof.
  unfold main_setup, LoadConfigFromEnv.
  destruct (ParseDuration (Getenv env "DDNS_INTERVAL")) as [i|]; [|done].
  simpl. eexists _, _. split; [done|]. split; [done|]. split; [done|].
  intros name. simpl. by rewrite foldl_insert_zero_lookup, lookup_empty.
Qed.

(** X4. The address that [CheckIP] returns is trimmed already, so the
    [TrimSpace] of [Run] on it changes nothing; it is empty with every
    error; and [CheckIP] returns no error exactly for an answer with a
    status below 400 whose body can be read, with the trimmed body as
    the address. *)
Theorem CheckIP_address http :
  let '(address, err) := CheckIP http in
  strings.TrimSpace address = address
  ∧ (err ≠ None → address = "")
  ∧ (err = None ↔ ∃ StatusCode body,
       http = Response StatusCode (Some body) ∧ StatusCode < StatusBadRequest
       ∧ address = strings.TrimSpace body).
Proof.
  destruct (CheckIP http) as [address err] eqn:Hcheck.
  split; [|split].
  - unfold CheckIP in Hcheck.
    destruct http as [msg|msg|StatusCode [body|]]; try (injection Hcheck as <- <-; done).
    destruct (StatusBadRequest <=? StatusCode); injection Hcheck as <- <-; [done|].
    apply TrimSpace_idemp.
  - destruct err as [e|]; [|done]. intros _. by apply (CheckIP_error http address e).
  - unfold CheckIP in Hcheck.
    destruct http as [msg|msg|StatusCode [body|]].
    1,2,4: simplify_eq; split; [discriminate|by intros (? & ? & [=] & _)].
    destruct (StatusBadRequest <=? StatusCode) eqn:E; simplify_eq.
    + split; [discriminate|]. intros (sc & b & [= <- <-] & Hlt & _). lia.
    + split; [|done]. intros _. exists StatusCode, body. split; [done|]. split; [lia|done].
Qed.

(* ===================================================================== *)
(** ** More on the synchronization *)
(* ===================================================================== *)

Lemma DDNSUpdater_eq d d' :
  recordMap d = recordMap d' → interval d = interval d' → lastSet d = lastSet d' →
  nextCheck d = nextCheck d' → currentIP d = currentIP d' →
  shutdown d = shutdown d' → complete d = complete d' → d = d'.
Proof. destruct d, d'; simpl; intros; by subst. Qed.

(** The updater after the loop of [syncRecords], when the range comes
    to every name of the map. *)
Lemma syncRecords_range_covered w order d :
  (∀ name, name ∈ dom (recordMap d) → name ∈ order) →
  let d' := (syncRecords_range w order d).1 in
  (∀ name, recordMap d' !! name
           = match recordMap d !! name, syncRecords_found w name with
             | Some _, Some record => Some record
             | old, _ => old
             end)
  ∧ d' = set_recordMap (recordMap d') d.
Proof.
  intros Hcover. simpl. split.
  - intros name. rewrite syncRecords_range_lookup.
    destruct (recordMap d !! name) as [old|] eqn:Hname.
    + rewrite decide_True; [done|]. split; [|done].
      apply Hcover, elem_of_dom. by rewrite Hname.
    + rewrite decide_False; [done|]. intros [_ [? ?]]. done.
  - pose proof (syncRecords_range_fields w order d) as Hf. simpl in Hf.
    apply DDNSUpdater_eq; simpl; tauto.
Qed.

Lemma syncRecords_range_dom w order d :
  dom (recordMap (syncRecords_range w order d).1) = dom (recordMap d).
Proof.
  apply set_eq. intros name. rewrite !elem_of_dom, syncRecords_range_lookup.
  case_decide as H; [|done]. destruct H as [_ Hsome].
  destruct (syncRecords_found w name); [|done]. split; eauto.
Qed.

(** X5. The updater that [syncRecords] leaves does not depend on the
    order in which Go ranges over the map. *)
Theorem syncRecords_order_irrelevant w order1 order2 d :
  range_order (recordMap d) order1 →
  range_order (recordMap d) order2 →
  (syncRecords w order1 d).1.1 = (syncRecords w order2 d).1.1.
Proof.
  intros [_ H1] [_ H2]. unfold syncRecords.
  destruct (syncRecords_range_covered w order1 d H1) as [Hl1 He1].
  destruct (syncRecords_range_covered w order2 d H2) as [Hl2 He2].
  destruct (syncRecords_range w order1 d) as [d1 ev1].
  destruct (syncRecords_range w order2 d) as [d2 ev2]. simpl in *.
  rewrite He1, He2. f_equal. apply map_eq. intros name. by rewrite Hl1, Hl2.
Qed.

Lemma scenario_three_hosts_order' :
  range_order (recordMap scenario_three_hosts)
    ["home.example.com"; "no such host"; "example.com"].
Proof.
  split.
  - apply (bool_decide_unpack _). vm_compute. exact I.
  - intros name Hname. apply (proj2 scenario_three_hosts_order) in Hname.
    set_unfold. tauto.
Qed.

Lemma syncRecords_order_irrelevant_witness :
  (syncRecords scenario_world ["no such host"; "example.com"; "home.example.com"]
     scenario_three_hosts).1.1
  = (syncRecords scenario_world ["home.example.com"; "no such host"; "example.com"]
       scenario_three_hosts).1.1.
Proof.
  apply (syncRecords_order_irrelevant scenario_world
           ["no such host"; "example.com"; "home.example.com"]
           ["home.example.com"; "no such host"; "example.com"] scenario_three_hosts).
  - exact scenario_three_hosts_order.
  - exact scenario_three_hosts_order'.
Defined.

(** X6. Synchronizing again against the same provider changes
    nothing: a second [syncRecords] leaves the updater that the first one
    left, in whatever orders the two range. *)
Theorem syncRecords_idempotent w order order' d :
  range_order (recordMap d) order →
  range_order (recordMap d) order' →
  (syncRecords w order' (syncRecords w order d).1.1).1.1 = (syncRecords w order d).1.1.
Proof.
  intros [_ H1] [_ H2]. unfold syncRecords.
  destruct (syncRecords_range_covered w order d H1) as [Hl1 He1].
  pose proof (syncRecords_range_dom w order d) as Hdom.
  destruct (syncRecords_range w order d) as [d1 ev1]. simpl in *.
  rewrite <- Hdom in H2.
  destruct (syncRecords_range_covered w order' d1 H2) as [Hl2 He2].
  destruct (syncRecords_range w order' d1) as [d2 ev2]. simpl in *.
  assert (Hm : recordMap d2 = recordMap d1).
  { apply map_eq. intros name. rewrite Hl2, Hl1.
    destruct (recordMap d !! name), (syncRecords_found w name); done. }
  rewrite He2, Hm. by destruct d1.
Qed.

Lemma syncRecords_idempotent_witness :
  (syncRecords scenario_world ["home.example.com"; "no such host"; "example.com"]
     (syncRecords scenario_world ["no such host"; "example.com"; "home.example.com"]
        scenario_three_hosts).1.1).1.1
  = (syncRecords scenario_world ["no such host"; "example.com"; "home.example.com"]
       scenario_three_hosts).1.1.
Proof.
  apply (syncRecords_idempotent scenario_world
           ["no such host"; "example.com"; "home.example.com"]
           ["home.example.com"; "no such host"; "example.com"] scenario_three_hosts).
  - exact scenario_three_hosts_order.
  - exact scenario_three_hosts_order'.
Defined.






(* ===================================================================== *)
(** ** More on the update pass *)
(* ===================================================================== *)

Lemma updateRecords_visit_no_lookup w name record d :
  Forall (fun e => isLookup e = false) (updateRecords_visit w name record d).2.
Proof.
  unfold updateRecords_visit. repeat (case_decide || case_match); simpl; repeat constructor.
Qed.

Lemma updateRecords_range_no_lookup w order : ∀ d,
  Forall (fun e => isLookup e = false) (updateRecords_range w order d).2.
Proof.
  induction order as [|name rest IH]; intros d; simpl; [constructor|].
  destruct (recordMap d !! name) as [record|]; [|apply IH].
  pose proof (updateRecords_visit_no_lookup w name record d) as Hv.
  destruct (updateRecords_visit w name record d) as [d1 e1].
  specialize (IH d1). destruct (updateRecords_range w rest d1) as [d2 e2].
  simpl in *. by apply Forall_app.
Qed.

(** X8. An update pass takes the new address as [currentIP] whatever
    becomes of the edits, loses no key of the map, never looks a record
    up, and leaves the interval, [nextCheck] and the two shutdown flags
    alone. *)
Theorem updateRecords_frame w order ip ts d :
  let '(d', ev) := updateRecords w order ip ts d in
  currentIP d' = ip
  ∧ dom (recordMap d) ⊆ dom (recordMap d')
  ∧ Forall (fun e => isLookup e = false) ev
  ∧ interval d' = interval d ∧ nextCheck d' = nextCheck d
  ∧ shutdown d' = shutdown d ∧ complete d' = complete d.
Proof.
  unfold updateRecords.
  pose proof (updateRecords_range_fields w order (set_currentIP ip d)) as Hf.
  pose proof (updateRecords_range_dom w order (set_currentIP ip d)) as Hd.
  pose proof (updateRecords_range_no_lookup w order (set_currentIP ip d)) as He.
  destruct (updateRecords_range w order (set_currentIP ip d)) as [d' ev]. simpl in *.
  destruct Hf as (? & ? & ? & ? & ? & ?).
  repeat split; try done. by constructor.
Qed.

Lemma updateRecords_visit_edits_fail w name record d :
  edits_fail w → (updateRecords_visit w name record d).1 = d.
Proof.
  intros Hfail. unfold updateRecords_visit.
  case_decide; [done|].
  destruct (tld_Parse w ("http://" +:+ name)) as [hostname|]; [|done]. simpl.
  specialize (Hfail (domainOf hostname) (godo.ID record) (net.String (currentIP d))).
  destruct (EditRecord w _ _ _) as [|r StatusCode bodyReadable]; [done|].
  destruct bodyReadable; simpl; [|done].
  destruct (StatusBadRequest <=? StatusCode) eqn:E; [done|].
  destruct Hfail; [done|lia].
Qed.

(** X9. When every edit fails (an error of the client, an answer that
    cannot be read, or a status of 400 or more), the pass leaves every
    binding as it was: the updater changes in [currentIP] and [lastSet]
    only. *)
Theorem updateRecords_edits_fail w order ip ts d :
  edits_fail w →
  (updateRecords w order ip ts d).1 = set_lastSet ts (set_currentIP ip d).
Proof.
  intros Hfail. unfold updateRecords.
  assert (Hrange : ∀ d0, (updateRecords_range w order d0).1 = d0).
  { induction order as [|name rest IH]; intros d0; simpl; [done|].
    destruct (recordMap d0 !! name) as [record|]; [|apply IH].
    pose proof (updateRecords_visit_edits_fail w name record d0 Hfail) as Hv.
    destruct (updateRecords_visit w name record d0) as [d1 e1]. simpl in Hv. subst d1.
    specialize (IH d0). by destruct (updateRecords_range w rest d0). }
  specialize (Hrange (set_currentIP ip d)).
  destruct (updateRecords_range w order (set_currentIP ip d)) as [d' ev].
  simpl in *. by subst.
Qed.

Lemma updateRecords_edits_fail_witness :
  (updateRecords scenario_world_down ["home.example.com"] (net.IPv4 5 6 7 8)
     7000000000 scenario_synced).1
  = set_lastSet 7000000000 (set_currentIP (net.IPv4 5 6 7 8) scenario_synced).
Proof.
  apply (updateRecords_edits_fail scenario_world_down ["home.example.com"]
           (net.IPv4 5 6 7 8) 7000000000 scenario_synced).
  intros domain id data. exact I.
Defined.

(** The pass over a map with the one name [name], in any order that
    comes to [name], when the edit of its record succeeds. *)
Lemma updateRecords_range_single w order d name record hostname r StatusCode :
  recordMap d = {[ name := record ]} →
  name ∈ order →
  godo.Data record ≠ net.String (currentIP d) →
  tld_Parse w ("http://" +:+ name) = Some hostname →
  EditRecord w (domainOf hostname) (godo.ID record) (net.String (currentIP d))
  = godo.EditResponse r StatusCode true →
  StatusCode < StatusBadRequest →
  ∃ post d1,
    updateRecords_range w order d
    = (let '(d2, e2) := updateRecords_range w post d1 in
       (d2, [CallEditRecord (domainOf hostname) (godo.ID record) (net.String (currentIP d));
             LogUpdated (domainOf hostname) (godo.Name record)] ++ e2))
    ∧ d1 = set_recordMap (<[domainOf hostname := r]> (recordMap d)) d.
Proof.
  intros Hmap Hin Hdata Hparse Hedit Hstatus.
  apply list_elem_of_split_l in Hin as (pre & post & -> & Hpre).
  exists post, (set_recordMap (<[domainOf hostname := r]> (recordMap d)) d).
  split; [|done].
  rewrite updateRecords_range_absent; cycle 1.
  { intros k Hk. rewrite Hmap. apply lookup_singleton_ne. by intros ->. }
  simpl. rewrite Hmap, lookup_singleton_eq. unfold updateRecords_visit.
  rewrite decide_False by done. rewrite Hparse. simpl. rewrite Hedit. simpl.
  destruct (StatusBadRequest <=? StatusCode) eqn:E; [lia|]. by rewrite Hmap.
Qed.

(** X10. For a tracked name that is its own registrable domain, the
    pass keeps its books: when the edit succeeds and the provider
    returns the record with the new address, the binding of the name
    holds that record after the pass, the map has no other key, and a
    second pass with the same address asks for no edit and changes no
    binding. *)
Theorem updateRecords_root_domain w order order' ip ts ts' d name record hostname r StatusCode :
  recordMap d = {[ name := record ]} →
  name ∈ order →
  godo.Data record ≠ net.String ip →
  tld_Parse w ("http://" +:+ name) = Some hostname →
  domainOf hostname = name →
  EditRecord w name (godo.ID record) (net.String ip) = godo.EditResponse r StatusCode true →
  StatusCode < StatusBadRequest →
  godo.Data r = net.String ip →
  let '(d1, ev1) := updateRecords w order ip ts d in
  let '(d2, ev2) := updateRecords w order' ip ts' d1 in
  recordMap d1 = {[ name := r ]}
  ∧ recordMap d2 = {[ name := r ]}
  ∧ Forall (fun e => isEdit e = false) ev2.
Proof.
  intros Hmap Hin Hdata Hparse Hroot Hedit Hstatus Hr.
  assert (Hall : ∀ d0, recordMap d0 = {[ name := r ]} → currentIP d0 = ip →
            ∀ k rec, recordMap d0 !! k = Some rec →
                     godo.Data rec = net.String (currentIP d0)).
  { intros d0 Hm Hip k rec. rewrite Hm, Hip.
    intros [-> <-]%lookup_singleton_Some. done. }
  unfold updateRecords.
  destruct (updateRecords_range_single w order (set_currentIP ip d) name record
              hostname r StatusCode) as (post & d1 & Hrange & Hd1); try done.
  { simpl. by rewrite Hroot. }
  rewrite Hrange. clear Hrange.
  assert (Hm1 : recordMap d1 = {[ name := r ]}).
  { rewrite Hd1. simpl. rewrite Hroot, Hmap. apply insert_singleton_eq. }
  assert (Hip1 : currentIP d1 = ip) by (by rewrite Hd1).
  pose proof (updateRecords_range_consistent w post d1 (Hall d1 Hm1 Hip1)) as Hpost.
  destruct (updateRecords_range w post d1) as [d1' e1']. destruct Hpost as [-> _].
  simpl.
  pose proof (updateRecords_range_consistent w order' (set_currentIP ip (set_lastSet ts d1))
                (Hall (set_currentIP ip (set_lastSet ts d1)) Hm1 eq_refl)) as H2.
  destruct (updateRecords_range w order' _) as [d2 e2]. destruct H2 as [-> He2].
  simpl. split; [done|]. split; [done|].
  constructor; [done|]. eapply Forall_impl; [exact He2|]. by intros ? ->.
Qed.

Lemma updateRecords_root_domain_witness :
  let '(d1, ev1) :=
    updateRecords scenario_world_root ["example.com"] (net.IPv4 5 6 7 8) 7000000000
      scenario_root in
  let '(d2, ev2) :=
    updateRecords scenario_world_root ["example.com"] (net.IPv4 5 6 7 8) 8000000000 d1 in
  recordMap d1 = {[ "example.com" := scenario_record 7 "@" "5.6.7.8" ]}
  ∧ recordMap d2 = {[ "example.com" := scenario_record 7 "@" "5.6.7.8" ]}
  ∧ Forall (fun e => isEdit e = false) ev2.
Proof.
  apply (updateRecords_root_domain scenario_world_root ["example.com"] ["example.com"]
           (net.IPv4 5 6 7 8) 7000000000 8000000000 scenario_root "example.com"
           (scenario_record 7 "@" "1.2.3.4")
           {| tld.Subdomain := ""; tld.Domain := "example"; tld.TLD := "com" |}
           (scenario_record 7 "@" "5.6.7.8") 200).
  - reflexivity.
  - apply list_elem_of_here.
  - vm_compute. discriminate.
  - reflexivity.
  - reflexivity.
  - reflexivity.
  - reflexivity.
  - reflexivity.
Defined.

(* ===================================================================== *)
(** ** More on the loop of Run *)
(* ===================================================================== *)

Lemma Equal_refl (ip : net.IP) : net.Equal ip ip = true.
Proof.
  unfold net.Equal, net.bytesEqual. rewrite Nat.eqb_refl. by apply bool_decide_eq_true_2.
Qed.

Lemma updateRecords_fields w order ip ts d :
  let '(d', ev) := updateRecords w order ip ts d in
  interval d' = interval d ∧ nextCheck d' = nextCheck d ∧ currentIP d' = ip
  ∧ shutdown d' = shutdown d ∧ complete d' = complete d
  ∧ Forall (fun e => isLookup e = false) ev.
Proof.
  unfold updateRecords.
  pose proof (updateRecords_range_fields w order (set_currentIP ip d)) as Hf.
  pose proof (updateRecords_range_no_lookup w order (set_currentIP ip d)) as He.
  destruct (updateRecords_range w order (set_currentIP ip d)) as [d' ev]. simpl in *.
  repeat split; try tauto. by constructor.
Qed.

(** What a tick of [Run] leaves alone when no shutdown is under way. *)
Lemma Run_tick_state w t d :
  shutdown d = false →
  let '(d1, ev, continue) := Run_tick w t d in
  continue = true ∧ interval d1 = interval d ∧ shutdown d1 = false
  ∧ complete d1 = complete d
  ∧ Forall (fun e => isLookup e = false) ev
  ∧ (currentIP d1 = currentIP d
     ∨ currentIP d1 = net.ParseIP (strings.TrimSpace (CheckIP (probe t)).1)).
Proof.
  intros Hs. unfold Run_tick. rewrite Hs.
  destruct (time.Before (nextCheck d) (now t) || time.Equal (nextCheck d) (now t)).
  2: { repeat split; auto. }
  destruct (CheckIP (probe t)) as [address err]. simpl.
  assert (Herr : Forall (fun e => isLookup e = false)
            match err with Some e => [LogError e] | None => [] end).
  { destruct err; repeat constructor. }
  destruct (negb (net.Equal (currentIP d) (net.ParseIP (strings.TrimSpace address)))).
  - pose proof (updateRecords_fields w (order t)
                  (net.ParseIP (strings.TrimSpace address)) (tick t) d) as Hf.
    destruct (updateRecords w (order t) _ (tick t) d) as [d1 e3]. simpl in *.
    destruct Hf as (Hi & Hn & Hc & Hsh & Hco & He).
    split; [done|]. split; [done|]. split; [congruence|]. split; [done|].
    split; [|by right].
    apply Forall_app. split; [done|].
    constructor; [done|]. apply Forall_app. split; [done|]. repeat constructor.
  - simpl. split; [done|]. split; [done|]. split; [done|]. split; [done|].
    split; [|by left].
    apply Forall_app. split; [done|]. repeat constructor.
Qed.

Lemma due_true (n m : time.Time) :
  n ≤ m → time.Before n m || time.Equal n m = true.
Proof.
  intros H. unfold time.Before, time.Equal.
  destruct (n <? m) eqn:E1; [done|]. destruct (n =? m) eqn:E2; [done|]. lia.
Qed.

(** X11. A probe that gives the address of the probe before it never
    starts an update pass, also when every edit of the pass before
    failed: a failed edit is not tried again until the address
    changes. *)
Theorem Run_tick_same_address w w' t t' d StatusCode body StatusCode' body' :
  probe t = Response StatusCode (Some body) →
  StatusCode < StatusBadRequest →
  probe t' = Response StatusCode' (Some body') →
  StatusCode' < StatusBadRequest →
  net.ParseIP (strings.TrimSpace body') = net.ParseIP (strings.TrimSpace body) →
  shutdown d = false →
  nextCheck d ≤ now t →
  time.Add (now t) (interval d) ≤ now t' →
  let ip := net.ParseIP (strings.TrimSpace body) in
  let d1 := (Run_tick w t d).1.1 in
  let next := time.Add (now t') (interval d) in
  Run_tick w' t' d1
  = (set_nextCheck next d1,
     [LogIP (net.String ip) (tick t'); LogUnchanged; LogNextCheck next], true).
Proof.
  intros Hp Hs Hp' Hs' Hsame Hsh Hdue Hdue'. simpl.
  destruct (Run_tick_answered w t d StatusCode body Hp Hs Hsh Hdue) as [_ Ht].
  assert (Hd1 : let d1 := (Run_tick w t d).1.1 in
            shutdown d1 = false ∧ interval d1 = interval d
            ∧ nextCheck d1 = time.Add (now t) (interval d)
            ∧ net.Equal (currentIP d1) (net.ParseIP (strings.TrimSpace body)) = true).
  { rewrite Ht. simpl.
    destruct (net.Equal (currentIP d) (net.ParseIP (strings.TrimSpace body))) eqn:E.
    - simpl. done.
    - pose proof (updateRecords_fields w (order t)
                    (net.ParseIP (strings.TrimSpace body)) (tick t) d) as Hf.
      destruct (updateRecords w (order t) _ (tick t) d) as [d1 ev]. simpl in *.
      destruct Hf as (Hi & Hn & Hc & Hsh1 & _).
      split; [congruence|]. split; [done|]. split; [done|].
      rewrite Hc. apply Equal_refl. }
  simpl in Hd1. destruct Hd1 as (Hsh1 & Hi1 & Hn1 & Heq).
  destruct (Run_tick_answered w' t' (Run_tick w t d).1.1 StatusCode' body' Hp' Hs' Hsh1)
    as [_ Ht'].
  { rewrite Hn1. done. }
  rewrite Ht'. simpl. rewrite Hsame, Heq, Hi1. done.
Qed.

Lemma Run_tick_same_address_witness :
  let t := {| tick := 7000000000; now := 7000000001;
              probe := Response 200 (Some "5.6.7.8"); order := ["home.example.com"] |} in
  let t' := {| tick := 13000000000; now := 13000000001;
               probe := Response 200 (Some " 5.6.7.8 "); order := ["home.example.com"] |} in
  let d1 := (Run_tick scenario_world_down t scenario_synced).1.1 in
  Run_tick scenario_world t' d1
  = (set_nextCheck 18000000001 d1,
     [LogIP "5.6.7.8" 13000000000; LogUnchanged; LogNextCheck 18000000001], true).
Proof.
  apply (Run_tick_same_address scenario_world_down scenario_world
           {| tick := 7000000000; now := 7000000001;
              probe := Response 200 (Some "5.6.7.8"); order := ["home.example.com"] |}
           {| tick := 13000000000; now := 13000000001;
              probe := Response 200 (Some " 5.6.7.8 "); order := ["home.example.com"] |}
           scenario_synced 200 "5.6.7.8" 200 " 5.6.7.8 ").
  - reflexivity.
  - reflexivity.
  - reflexivity.
  - reflexivity.
  - vm_compute. reflexivity.
  - reflexivity.
  - simpl. lia.
  - vm_compute. discriminate.
Defined.

(** X12. Until [nextCheck] is reached the loop does nothing at all: no
    probe, no request, no log line, no change of the updater. *)
Theorem Run_loop_idle w ticks d :
  shutdown d = false →
  Forall (fun t => now t < nextCheck d) ticks →
  Run_loop w ticks d = (d, [], true).
Proof.
  intros Hs. induction 1 as [|t ticks Ht _ IH]; simpl; [done|].
  unfold Run_tick. rewrite Hs.
  assert (time.Before (nextCheck d) (now t) || time.Equal (nextCheck d) (now t) = false) as ->.
  { unfold time.Before, time.Equal.
    destruct (nextCheck d <? now t) eqn:E1; [lia|].
    destruct (nextCheck d =? now t) eqn:E2; [lia|done]. }
  by rewrite IH.
Qed.

Lemma Run_loop_idle_witness :
  Run_loop scenario_world
    [ {| tick := 2000000000; now := 2000000001; probe := Response 200 (Some "5.6.7.8");
         order := ["home.example.com"] |};
      {| tick := 3000000000; now := 3000000001; probe := TransportError "timeout";
         order := ["home.example.com"] |} ]
    scenario_synced
  = (scenario_synced, [], true).
Proof.
  apply (Run_loop_idle scenario_world).
  - reflexivity.
  - repeat constructor.
Defined.


Lemma syncRecords_fields w order d :
  let d' := (syncRecords w order d).1.1 in
  interval d' = interval d ∧ lastSet d' = lastSet d ∧ nextCheck d' = nextCheck d
  ∧ currentIP d' = currentIP d ∧ shutdown d' = shutdown d ∧ complete d' = complete d.
Proof.
  unfold syncRecords.
  pose proof (syncRecords_range_fields w order d) as Hf.
  by destruct (syncRecords_range w order d).
Qed.

(** X13. The handshake of the shutdown. Once [Shutdown] has set the
    flag, [Run] ends at the first tick it gets: it makes no probe and no
    request on that tick, sets [complete] and returns nil; an iteration
    of [Shutdown] that then reads [complete] before its deadline returns
    nil too. *)
Theorem Run_after_shutdown w ctx waited syncOrder t rest d :
  let d0 := (Shutdown ctx waited d).1 in
  let synced := syncRecords w syncOrder d0 in
  Run w syncOrder (t :: rest) d0
  = (set_complete true synced.1.1, synced.1.2, Some None)
  ∧ Run_loop w (t :: rest) d0 = (set_complete true d0, [], false)
  ∧ ∀ s, completeRead s = complete (set_complete true d0) →
         match ctx with
         | Some deadline => now1 s ≤ deadline ∧ now2 s ≠ deadline
         | None => True
         end →
         Shutdown_loop ctx [s] = Some None.
Proof.
  simpl. split; [|split].
  - unfold Run.
    pose proof (syncRecords_fields w syncOrder (set_shutdown true d)) as Hf.
    destruct (syncRecords w syncOrder (set_shutdown true d)) as [[d1 e1] err] eqn:Hsync.
    assert (err = None) as ->.
    { unfold syncRecords in Hsync.
      destruct (syncRecords_range w syncOrder (set_shutdown true d)). congruence. }
    simpl in *. destruct Hf as (_ & _ & _ & _ & Hs & _).
    unfold Run_tick. rewrite Hs. by rewrite app_nil_r.
  - done.
  - intros s Hc Hctx. simpl in *. rewrite Hc.
    destruct ctx as [deadline|]; [|done].
    destruct Hctx as [H1 H2]. unfold time.After, time.Equal.
    destruct (deadline <? now1 s) eqn:E1; [lia|].
    destruct (now2 s =? deadline) eqn:E2; [lia|done].
Qed.


(* ===================================================================== *)
(** ** More on Shutdown *)
(* ===================================================================== *)

Lemma Shutdown_loop_nil ctx ticks :
  Shutdown_loop ctx ticks = Some None → ∃ t, t ∈ ticks ∧ completeRead t = true.
Proof.
  induction ticks as [|t ticks IH]; simpl; [done|].
  destruct (match ctx with Some _ => _ | None => _ end); [done|].
  destruct (completeRead t) eqn:Hc.
  - intros _. exists t. split; [by left|done].
  - intros H. destruct (IH H) as (t0 & Hin & Hc0). exists t0. split; [by right|done].
Qed.

Lemma Shutdown_loop_error ctx ticks e :
  Shutdown_loop ctx ticks = Some (Some e) →
  e = ErrShutdownTimeout
  ∧ ∃ deadline t, ctx = Some deadline ∧ t ∈ ticks
                  ∧ (deadline < now1 t ∨ now2 t = deadline).
Proof.
  induction ticks as [|t ticks IH]; simpl; [done|].
  destruct ctx as [deadline|].
  - destruct (time.After (now1 t) deadline || time.Equal (now2 t) deadline) eqn:E.
    + intros [= <-]. split; [done|]. exists deadline, t.
      split; [done|]. split; [by left|].
      unfold time.After, time.Equal in E.
      apply orb_true_iff in E as [E|E]; [left|right]; lia.
    + destruct (completeRead t); [done|]. intros H.
      destruct (IH H) as (-> & dl & t0 & Hdl & Hin & Hcond).
      split; [done|]. exists dl, t0. split; [done|]. split; [by right|done].
  - destruct (completeRead t); [done|]. intros H.
    destruct (IH H) as (_ & dl & _ & Hdl & _). done.
Qed.

(** X15. What [Shutdown] can return. It returns nil only in an
    iteration that reads [complete] set, the timeout error only in an
    iteration whose clock is after the deadline or on it, and no other
    error; a context without a deadline never times out, and in every
    case the shutdown flag is set. *)
Theorem Shutdown_outcomes ctx ticks d :
  shutdown (Shutdown ctx ticks d).1 = true
  ∧ (Shutdown_loop ctx ticks = Some None →
     ∃ t, t ∈ ticks ∧ completeRead t = true)
  ∧ (∀ e, Shutdown_loop ctx ticks = Some (Some e) →
     e = ErrShutdownTimeout
     ∧ ∃ deadline t, ctx = Some deadline ∧ t ∈ ticks
                     ∧ (deadline < now1 t ∨ now2 t = deadline))
  ∧ (ctx = None → ∀ e, Shutdown_loop ctx ticks ≠ Some (Some e)).
Proof.
  split; [done|]. split; [apply Shutdown_loop_nil|].
  split; [intros e; apply Shutdown_loop_error|].
  intros -> e He. destruct (Shutdown_loop_error None ticks e He) as (_ & dl & _ & Hdl & _).
  done.
Qed.

(* ===================================================================== *)
(** ** The earlier revision against the present one *)
(* ===================================================================== *)

Lemma part_001_Run_tick_failure w t d e :
  (CheckIP (probe t)).2 = Some e →
  shutdown d = false →
  nextCheck d ≤ now t →
  part_001.Run_tick w t d = (d, [LogError e], true).
Proof.
  intros He Hs Hdue. unfold part_001.Run_tick. rewrite Hs, due_true by done.
  unfold CheckIP in He.
  destruct (probe t) as [msg|msg|StatusCode [body|]]; simpl in He; try by simplify_eq.
  destruct (StatusBadRequest <=? StatusCode); simpl in He; by simplify_eq.
Qed.

(** X16. In the earlier revision of [Run], a tick whose probe fails
    changes nothing and logs the error only; [nextCheck] stays, so the
    next tick probes again. *)
Theorem part_001_Run_retries w t t' d e e' :
  (CheckIP (probe t)).2 = Some e →
  (CheckIP (probe t')).2 = Some e' →
  shutdown d = false →
  nextCheck d ≤ now t →
  now t ≤ now t' →
  part_001.Run_loop w [t; t'] d = (d, [LogError e; LogError e'], true).
Proof.
  intros He He' Hs Hdue Hlater. simpl.
  rewrite (part_001_Run_tick_failure w t d e) by done.
  rewrite (part_001_Run_tick_failure w t' d e') by (done || lia).
  done.
Qed.

Lemma part_001_Run_retries_witness :
  let t := {| tick := 7000000000; now := 7000000001;
              probe := TransportError "timeout"; order := ["home.example.com"] |} in
  let t' := {| tick := 8000000000; now := 8000000001;
               probe := Response 503 (Some "busy"); order := ["home.example.com"] |} in
  part_001.Run_loop scenario_world [t; t'] scenario_synced
  = (scenario_synced,
     [LogError (ErrUnpackingResponse "timeout"); LogError (ErrFromServer 503 "busy")], true).
Proof.
  apply (part_001_Run_retries scenario_world
           {| tick := 7000000000; now := 7000000001;
              probe := TransportError "timeout"; order := ["home.example.com"] |}
           {| tick := 8000000000; now := 8000000001;
              probe := Response 503 (Some "busy"); order := ["home.example.com"] |}
           scenario_synced).
  - reflexivity.
  - reflexivity.
  - reflexivity.
  - simpl. lia.
  - simpl. lia.
Defined.

Lemma part_001_Run_visit_agrees w name record d :
  edits_readable w →
  part_001.Run_visit w name record d = updateRecords_visit w name record d.
Proof.
  intros Hread. unfold part_001.Run_visit, updateRecords_visit.
  case_decide; [done|].
  destruct (tld_Parse w ("http://" +:+ name)) as [hostname|]; [|done]. simpl.
  destruct (EditRecord w _ _ _) as [|r StatusCode bodyReadable] eqn:E; [done|].
  by rewrite (Hread _ _ _ _ _ _ E).
Qed.

Lemma part_001_Run_range_agrees w order : ∀ d,
  edits_readable w →
  part_001.Run_range w order d = updateRecords_range w order d.
Proof.
  induction order as [|name rest IH]; intros d Hread; simpl; [done|].
  destruct (recordMap d !! name) as [record|]; [|by apply IH].
  rewrite part_001_Run_visit_agrees by done.
  destruct (updateRecords_visit w name record d) as [d1 e1]. by rewrite IH.
Qed.

Lemma part_001_Run_tick_agrees w t d :
  edits_readable w →
  (CheckIP (probe t)).2 = None →
  part_001.Run_tick w t d = Run_tick w t d.
Proof.
  intros Hread Hok. unfold part_001.Run_tick, Run_tick.
  destruct (shutdown d); [done|].
  destruct (time.Before (nextCheck d) (now t) || time.Equal (nextCheck d) (now t)); [|done].
  unfold CheckIP in *.
  destruct (probe t) as [msg|msg|StatusCode [body|]]; simpl in Hok; try done.
  destruct (StatusBadRequest <=? StatusCode); simpl in Hok; [done|].
  rewrite TrimSpace_idemp. unfold updateRecords.
  by rewrite part_001_Run_range_agrees.
Qed.

(** X17. The split of [Run] into [CheckIP] and [updateRecords] kept
    what the program does when all goes well: on ticks whose probes
    succeed, against a provider whose answers to edits can be read, the
    earlier revision and the present one leave the same updater, log and
    request the same, and return the same. *)
Theorem part_001_Run_agrees w syncOrder ticks d :
  edits_readable w →
  Forall (fun t => (CheckIP (probe t)).2 = None) ticks →
  part_001.Run w syncOrder ticks d = Run w syncOrder ticks d.
Proof.
  intros Hread Hok. unfold part_001.Run, Run, part_001.SyncRecords.
  destruct (syncRecords w syncOrder d) as [[d0 e0] err].
  destruct err; [done|].
  assert (Hloop : ∀ d0, part_001.Run_loop w ticks d0 = Run_loop w ticks d0).
  { induction Hok as [|t ticks Ht _ IH]; intros d1; simpl; [done|].
    rewrite part_001_Run_tick_agrees by done.
    destruct (Run_tick w t d1) as [[d2 e2] continue].
    destruct continue; [|done]. by rewrite IH. }
  by rewrite Hloop.
Qed.

Lemma part_001_Run_agrees_witness :
  let ticks := [ {| tick := 7000000000; now := 7000000001;
                    probe := Response 200 (Some "5.6.7.8 ");
                    order := ["home.example.com"] |} ] in
  part_001.Run scenario_world ["home.example.com"] ticks scenario_synced
  = Run scenario_world ["home.example.com"] ticks scenario_synced.
Proof.
  apply (part_001_Run_agrees scenario_world ["home.example.com"]
           [ {| tick := 7000000000; now := 7000000001;
                probe := Response 200 (Some "5.6.7.8 ");
                order := ["home.example.com"] |} ] scenario_synced).
  - intros domain id data r StatusCode bodyReadable [= _ _ <-]. reflexivity.
  - repeat constructor.
Defined.

(* ===================================================================== *)
(** ** The form of the address the updater holds *)
(* ===================================================================== *)

Lemma parseIPv4_length s : net.parseIPv4 s = [] ∨ length (net.parseIPv4 s) = net.IPv6len.
Proof.
  unfold net.parseIPv4.
  destruct (net.parseIPv4_fields net.IPv4len 0 s)
    as [[[|a [|b [|c [|e [|? ?]]]]] [|? ?]]|]; auto.
Qed.

Lemma parseIPv6_loop_length fuel : ∀ s ellipsis ip s' ellipsis' ip',
  (length ip ≤ 16)%nat → Nat.Even (length ip) →
  net.parseIPv6_loop fuel s ellipsis ip = Some (s', ellipsis', ip') →
  (length ip' ≤ 16)%nat ∧ Nat.Even (length ip').
Proof.
  induction fuel as [|fuel IH]; intros s ellipsis ip s' ellipsis' ip' Hle Hev;
    cbn [net.parseIPv6_loop]; cbv zeta.
  { intros [= <- <- <-]. done. }
  destruct (net.IPv6len <=? length ip)%nat eqn:Hfull.
  { intros [= <- <- <-]. done. }
  apply Nat.leb_gt in Hfull. unfold net.IPv6len in Hfull.
  destruct (net.xtoi s) as [[n c] ok].
  destruct (negb ok || (65535 <? n)); [done|].
  destruct ((c <? length s)%nat && bool_decide (nth c s "x"%char = "."%char)).
  - destruct (bool_decide (ellipsis = None)
              && negb (length ip =? net.IPv6len - net.IPv4len)%nat); [done|].
    destruct (net.IPv6len <? length ip + net.IPv4len)%nat eqn:Hroom; [done|].
    apply Nat.ltb_ge in Hroom. unfold net.IPv6len, net.IPv4len in Hroom.
    destruct (parseIPv4_length s) as [H4|H4].
    + rewrite H4. done.
    + destruct (net.parseIPv4 s) as [|z l] eqn:E4; [done|].
      intros [= <- <- <-]. simpl in H4. unfold net.IPv6len in H4.
      rewrite length_app. simpl. rewrite length_drop. split; [lia|].
      destruct Hev as [k Hk]. exists (k + 2)%nat. lia.
  - set (ip2 := ip ++ [Z.shiftr n 8; Z.land n 255]).
    assert (Hle2 : (length ip2 ≤ 16)%nat).
    { unfold ip2. rewrite length_app. simpl. destruct Hev as [k Hk]. lia. }
    assert (Hev2 : Nat.Even (length ip2)).
    { unfold ip2. rewrite length_app. simpl. destruct Hev as [k Hk].
      exists (k + 1)%nat. lia. }
    destruct (drop c s) as [|c0 s1] eqn:Hdrop.
    { intros [= <- <- <-]. done. }
    destruct (negb (bool_decide (c0 = ":"%char)) || (length (c0 :: s1) =? 1)%nat); [done|].
    destruct s1 as [|c1 s2]; [done|].
    case_decide.
    + destruct ellipsis; [done|].
      destruct s2 as [|c2 s3].
      * intros [= <- <- <-]. done.
      * intros Hrec. by apply (IH _ _ _ _ _ _ Hle2 Hev2 Hrec).
    + intros Hrec. by apply (IH _ _ _ _ _ _ Hle2 Hev2 Hrec).
Qed.

Lemma parseIPv6_length s : net.parseIPv6 s = [] ∨ length (net.parseIPv6 s) = net.IPv6len.
Proof.
  unfold net.parseIPv6.
  assert (Hloop : ∀ ellipsis s0,
    let r := match net.parseIPv6_loop 8 s0 ellipsis [] with
             | None => []
             | Some (_ :: _, _, _) => []
             | Some ([], ellipsis, ip) =>
                 let i := length ip in
                 if (i <? net.IPv6len)%nat then
                   match ellipsis with
                   | None => []
                   | Some e => take e ip ++ replicate (net.IPv6len - i) 0 ++ drop e ip
                   end
                 else match ellipsis with Some _ => [] | None => ip end
             end in
    r = [] ∨ length r = net.IPv6len).
  { intros ellipsis s0. cbv zeta.
    destruct (net.parseIPv6_loop 8 s0 ellipsis []) as [[[rest ellipsis'] ip]|] eqn:Hl; [|auto].
    destruct rest; [|auto].
    apply parseIPv6_loop_length in Hl as [Hle Hev]; [|simpl; lia|by exists 0%nat].
    destruct (length ip <? net.IPv6len)%nat eqn:E.
    - destruct ellipsis' as [e|]; [|auto]. right.
      apply Nat.ltb_lt in E.
      rewrite !length_app, length_replicate, length_take, length_drop.
      unfold net.IPv6len in *. lia.
    - destruct ellipsis'; [auto|]. right.
      apply Nat.ltb_ge in E. unfold net.IPv6len in *. lia. }
  destruct s as [|c0 [|c1 s2]]; try apply (Hloop None).
  destruct (bool_decide (c0 = ":"%char) && bool_decide (c1 = ":"%char)).
  - destruct s2; [right; reflexivity|]. apply (Hloop (Some 0%nat)).
  - apply (Hloop None).
Qed.

Lemma ParseIP_scan_parsed whole : ∀ l, parsedIP (net.ParseIP_scan l whole).
Proof.
  unfold parsedIP. induction l as [|c l IH]; simpl; [auto|].
  case_decide; [apply parseIPv4_length|].
  case_decide; [apply parseIPv6_length|]. apply IH.
Qed.

Lemma ParseIP_parsed s : parsedIP (net.ParseIP s).
Proof. apply ParseIP_scan_parsed. Qed.

Lemma Equal_parsed (x y : net.IP) :
  parsedIP x → parsedIP y → (net.Equal x y = true ↔ x = y).
Proof.
  unfold parsedIP, net.IPv6len. intros [->|Hx] [->|Hy].
  - done.
  - unfold net.Equal, net.IPv4len, net.IPv6len. simpl. rewrite Hy. simpl.
    split; [done|]. intros <-. done.
  - unfold net.Equal, net.IPv4len, net.IPv6len. simpl. rewrite Hx. simpl.
    split; [done|]. intros ->. done.
  - apply Equal_same_length. congruence.
Qed.

Lemma Run_loop_parsed w ticks : ∀ d,
  parsedIP (currentIP d) → parsedIP (currentIP (Run_loop w ticks d).1.1).
Proof.
  induction ticks as [|t ticks IH]; intros d Hd; simpl; [done|].
  destruct (shutdown d) eqn:Hs.
  - unfold Run_tick. rewrite Hs. done.
  - pose proof (Run_tick_state w t d Hs) as Ht.
    destruct (Run_tick w t d) as [[d1 e1] continue].
    destruct Ht as (-> & _ & _ & _ & _ & Hip).
    assert (Hd1 : parsedIP (currentIP d1)).
    { destruct Hip as [->| ->]; [done|apply ParseIP_parsed]. }
    specialize (IH d1 Hd1). by destruct (Run_loop w ticks d1) as [[d2 e2] running].
Qed.

(** X18. The address the updater holds is nil or an address of sixteen
    bytes, whatever the probes answered: in every state that [Run]
    reaches from a new updater, and so whenever [Run] compares a probed
    address with it, [Equal] is the equality of the bytes of the two
    addresses as [ParseIP] gave them. *)
Theorem Run_currentIP_parsed w syncOrder ticks domains i t0 :
  let d' := (Run w syncOrder ticks (NewDDNSUpdater domains i t0)).1.1 in
  parsedIP (currentIP d')
  ∧ ∀ body, net.Equal (currentIP d') (net.ParseIP body) = true
            ↔ currentIP d' = net.ParseIP body.
Proof.
  assert (H : parsedIP (currentIP (Run w syncOrder ticks (NewDDNSUpdater domains i t0)).1.1)).
  { unfold Run.
    pose proof (syncRecords_fields w syncOrder (NewDDNSUpdater domains i t0)) as Hf.
    destruct (syncRecords w syncOrder (NewDDNSUpdater domains i t0)) as [[d0 e0] err].
    simpl in Hf. destruct Hf as (_ & _ & _ & Hip & _).
    destruct err.
    - simpl. rewrite Hip. by left.
    - pose proof (Run_loop_parsed w ticks d0) as Hl.
      destruct (Run_loop w ticks d0) as [[d1 e1] running]. simpl in *.
      apply Hl. rewrite Hip. by left. }
  simpl. split; [done|]. intros body. apply Equal_parsed; [done|apply ParseIP_parsed].
Qed.
